(** * helm-docgen: the annotation-driven tree walker

    A shallow embedding of [internal/parser/document.go] (the walker and the
    document assembler) together with the path and comment models it relies
    on, and the properties of the specification proved over it. *)

From Stdlib Require Import String Ascii ZArith Lia.
From Stdlib Require Import DecimalString DecimalNat.
From stdpp Require Import base option list strings gmap.

Local Open Scope string_scope.
Local Open Scope list_scope.

(** ** Path model *)

(** A path component is a named-property step or a numeric-index step
    ([stringPathComponent] and [indexPathComponent] in [path_test.go]). *)
Inductive PathComponent : Type :=
  | stringPathComponent (name : string)
  | indexPathComponent (index : nat).

Definition Path : Type := list PathComponent.

Inductive PathError : Type :=
  | SyntaxError (rest : string).

(** Modelled from the spec: [Path.WithProperty] lives in path.go, which is
    not part of the sources at hand; it appends a property step and leaves
    the receiver unchanged. *)
Definition Path_WithProperty (p : Path) (name : string) : Path :=
  p ++ [stringPathComponent name].

(** Modelled from the spec: [Path.WithIndex] (path.go) appends an index
    step. *)
Definition Path_WithIndex (p : Path) (i : nat) : Path :=
  p ++ [indexPathComponent i].

(** Modelled from the spec: [Path.Parent] (path.go) drops the last
    component; the empty path is its own parent. *)
Definition Path_Parent (p : Path) : Path := removelast p.

Definition render_nat (n : nat) : string :=
  NilEmpty.string_of_uint (Nat.to_uint n).

(** Rendering of one component; [first] tells whether it is the first
    component of the path. *)
Definition render_component (first : bool) (c : PathComponent) : string :=
  match c with
  | stringPathComponent name => if first then name else "." +:+ name
  | indexPathComponent i => "[" +:+ render_nat i +:+ "]"
  end.

Fixpoint render_from (first : bool) (p : Path) : string :=
  match p with
  | [] => ""
  | c :: rest => render_component first c +:+ render_from false rest
  end.

(** Modelled from the spec: [Path.String] (path.go) is the canonical
    rendering: property steps after the first component are dot-prefixed,
    index steps are rendered as [[n]]. *)
Definition Path_String (p : Path) : string := render_from true p.

Definition in_range (lo hi : nat) (c : ascii) : bool :=
  (lo <=? nat_of_ascii c)%nat && (nat_of_ascii c <=? hi)%nat.

Definition is_digit (c : ascii) : bool := in_range 48 57 c.

(** The character class [[a-zA-Z0-9_-]] of property segments. *)
Definition is_name_char (c : ascii) : bool :=
  in_range 97 122 c || in_range 65 90 c || is_digit c
  || Ascii.eqb c "_" || Ascii.eqb c "-".

(** Longest prefix whose characters satisfy [f], and the remainder. *)
Fixpoint span (f : ascii -> bool) (s : string) : string * string :=
  match s with
  | EmptyString => (EmptyString, EmptyString)
  | String c rest =>
      if f c then
        let '(taken, remaining) := span f rest in
        (String c taken, remaining)
      else (EmptyString, s)
  end.

Definition digits_to_nat (ds : string) : nat :=
  match NilEmpty.uint_of_string ds with
  | Some d => Nat.of_uint d
  | None => 0
  end.

(** One iteration per segment; every segment consumes at least one
    character, so [length s] iterations always suffice. *)
Fixpoint parse_segments (fuel : nat) (first : bool) (acc : Path) (s : string)
  : Path * option PathError :=
  match fuel with
  | O =>
      match s with
      | EmptyString => (acc, None)
      | _ => (acc, Some (SyntaxError s))
      end
  | S fuel' =>
      match s with
      | EmptyString => (acc, None)
      | String c rest =>
          if Ascii.eqb c "[" then
            let '(ds, r) := span is_digit rest in
            match ds, r with
            | String _ _, String close r' =>
                if Ascii.eqb close "]" then
                  parse_segments fuel' false
                    (acc ++ [indexPathComponent (digits_to_nat ds)]) r'
                else (acc, Some (SyntaxError s))
            | _, _ => (acc, Some (SyntaxError s))
            end
          else if Ascii.eqb c "." then
            let '(name, r) := span is_name_char rest in
            match name with
            | EmptyString => (acc, Some (SyntaxError s))
            | _ =>
                parse_segments fuel' false
                  (acc ++ [stringPathComponent name]) r
            end
          else if first && is_name_char c then
            let '(name, r) := span is_name_char s in
            parse_segments fuel' false (acc ++ [stringPathComponent name]) r
          else (acc, Some (SyntaxError s))
      end
  end.

(** Modelled from the spec: [ParsePath] lives in path.go, which is not part
    of the sources at hand (only its table test is).  It scans left to
    right, greedily takes the longest segment at each position (a property
    segment [[a-zA-Z0-9_-]+], dot-prefixed except possibly the first; an
    index segment [[digits]]) and, at a character that starts no segment,
    fails with a syntax error while still returning the components parsed
    so far. *)
Definition ParsePath (s : string) : Path * option PathError :=
  parse_segments (String.length s) true [] s.

(** A property name that renders unambiguously: non-empty and made of the
    characters of the property-segment class only. *)
Fixpoint all_chars (f : ascii -> bool) (s : string) : bool :=
  match s with
  | EmptyString => true
  | String c rest => f c && all_chars f rest
  end.

Definition valid_component (c : PathComponent) : bool :=
  match c with
  | stringPathComponent name =>
      negb (String.eqb name "") && all_chars is_name_char name
  | indexPathComponent _ => true
  end.

Definition valid_path (p : Path) : bool := forallb valid_component p.

(** The characters the two grammar rules are made of. *)
Definition is_segment_char (c : ascii) : bool :=
  is_name_char c || Ascii.eqb c "." || Ascii.eqb c "[" || Ascii.eqb c "]".

(** The string holds a character that belongs to neither grammar rule. *)
Definition contains_unmatched (s : string) : bool :=
  negb (all_chars is_segment_char s).

(** The head of a string does not satisfy [f] (or the string is empty). *)
Definition stops (f : ascii -> bool) (s : string) : Prop :=
  match s with
  | EmptyString => True
  | String c _ => f c = false
  end.

(** The component is a named-property step. *)
Definition is_property (c : PathComponent) : bool :=
  match c with
  | stringPathComponent _ => true
  | indexPathComponent _ => false
  end.

(** The last component of the path is a named-property step. *)
Definition ends_with_property (p : Path) : bool :=
  match last p with
  | Some (stringPathComponent _) => true
  | _ => false
  end.

(** The error of a parse that left [rest] unread: none when nothing is
    left. *)
Definition error_at (rest : string) : option PathError :=
  match rest with
  | EmptyString => None
  | _ => Some (SyntaxError rest)
  end.

(** A segment of the grammar starts at the head of [s]: an index segment
    (an opening bracket, at least one digit, a closing bracket), a dot
    followed by at least one character of the property-segment class, or,
    at the start of the path only ([first]), a character of that class. *)
Definition starts_segment (first : bool) (s : string) : bool :=
  match s with
  | EmptyString => false
  | String c rest =>
      if Ascii.eqb c "[" then
        let '(ds, r) := span is_digit rest in
        match ds, r with
        | String _ _, String close _ => Ascii.eqb close "]"
        | _, _ => false
        end
      else if Ascii.eqb c "." then
        match rest with
        | String x _ => is_name_char x
        | EmptyString => false
        end
      else first && is_name_char c
  end.

(** No rule of the grammar matches at the head of the non-empty string
    [tail], which follows the components [p] parsed so far: no segment
    starts there, and its head does not continue a property name that ends
    [p]. *)
Definition unmatched_at (p : Path) (tail : string) : Prop :=
  tail <> ""
  /\ starts_segment (bool_decide (p = [])) tail = false
  /\ (ends_with_property p = true -> stops is_name_char tail).

(** ** Comment model *)

Definition TagSection : string := "docs:section".
Definition TagIgnore : string := "docs:ignore".
Definition TagType : string := "docs:type".
Definition TagDefault : string := "docs:default".
Definition TagProperty : string := "docs:property".

Inductive CommentType : Type :=
  | CommentTypeText
  | CommentTypeCode.

(** A content segment of a comment; document.go reads its [Type] field and
    calls its [String] method. *)
Record CommentSection : Type := mkCommentSection {
  csType : CommentType;
  csContent : string
}.

(** Directive tags: a mapping from directive name to string value. *)
Abbreviation Tags := (gmap string string).

Record Comment : Type := mkComment {
  cTags : Tags;
  cSections : list CommentSection
}.

Definition Comments : Type := list Comment.

(** The zero value [Comment{}]. *)
Definition zeroComment : Comment := {| cTags := ∅; cSections := [] |}.

(** Modelled from the spec: [Tags.GetBool] lives in comment.go, which is not
    part of the sources at hand.  A directive that is present counts as set
    (with no value, or with any value but the string false); an absent one
    does not. *)
Definition Tags_GetBool (t : Tags) (name : string) : bool :=
  match t !! name with
  | Some v => negb (String.eqb v "false")
  | None => false
  end.

(** Modelled from the spec: [Tags.GetString] (comment.go) returns the
    literal value, or the empty string when the directive is unset or has
    no value. *)
Definition Tags_GetString (t : Tags) (name : string) : string :=
  match t !! name with
  | Some v => v
  | None => ""
  end.

(** Modelled from the spec: [Comments.Pop] (comment.go) removes and returns
    the first comment; on an empty sequence it returns the zero comment and
    false.  The third component is the receiver after the call. *)
Definition Comments_Pop (c : Comments) : Comment * bool * Comments :=
  match c with
  | [] => (zeroComment, false, [])
  | first :: rest => (first, true, rest)
  end.

(** ** The decoded tree (gopkg.in/yaml.v3) *)

Inductive yaml_Kind : Type :=
  | ZeroKind
  | DocumentNode
  | SequenceNode
  | MappingNode
  | ScalarNode
  | AliasNode.

(** A [*yaml.Node]. Nodes are never mutated by the walk, and the alias
    pointers of a decoded tree may point back into the tree. *)
Definition ptr : Type := nat.

Record yaml_Node : Type := mkYamlNode {
  Kind : yaml_Kind;
  Tag : string;
  Value : string;
  Alias : option ptr;
  Content : list ptr;
  HeadComment : string;
  FootComment : string
}.

(** Everything document.go calls but does not define: the node memory the
    pointers refer to (the decoded input tree and the nodes allocated by
    [yaml.Unmarshal]), the comment parser and printers of comment.go, and
    the yaml.v3 and strings library functions. *)
Class World : Type := mkWorld {
  mem : ptr -> yaml_Node;
  ParseComment : string -> Comments;
  Comment_String : Comment -> string;
  CommentSection_String : CommentSection -> string;
  yaml_Unmarshal : string -> yaml_Node;
  Node_ShortTag : ptr -> string;
  GoValue : Type;
  Node_Decode : ptr -> GoValue;
  Node_Encode : GoValue -> yaml_Node;
  Encoder_Encode : nat -> yaml_Node -> string;
  strings_TrimSpace : string -> string
}.

(** ** The document model (document.go) *)

Record DocProperty : Type := mkProperty {
  pName : string;
  pDescription : Comment;
  pType : string;
  pDefault : string
}.

Record DocSection : Type := mkSection {
  sName : string;
  sDescription : string;
  sProperties : list DocProperty
}.

Record Document : Type := mkDocument {
  Sections : list DocSection
}.

(** The zero value [Section{}], as produced by [make([]Section, 1)]. *)
Definition zeroSection : DocSection :=
  {| sName := ""; sDescription := ""; sProperties := [] |}.

Record Node : Type := mkNode {
  nPath : Path;
  nHeadComments : Comments;
  nFootComment : Comments;
  nRawNode : option ptr
}.

Inductive error : Type :=
  | mkError (msg : string).

(** ** Effects

    The callback of [Load] mutates the captured [document] and writes to
    the process log.  [discovered] is a ghost field: it records every
    property handed to [appendProperty], in order, and is never read by the
    code. *)
Record Assembly : Type := mkAssembly {
  document : Document;
  diagnostics : list string;
  discovered : list DocProperty
}.

Inductive result (A : Type) : Type :=
  | Done (a : A)
  | Panic (msg : string)
  | OutOfFuel.
Arguments Done {A} a.
Arguments Panic {A} msg.
Arguments OutOfFuel {A}.

Definition M (A : Type) : Type := Assembly -> result (A * Assembly).

Definition ret {A} (a : A) : M A := fun st => Done (a, st).

Definition bind {A B} (m : M A) (k : A -> M B) : M B :=
  fun st =>
    match m st with
    | Done (a, st') => k a st'
    | Panic msg => Panic msg
    | OutOfFuel => OutOfFuel
    end.

Definition panic {A} (msg : string) : M A := fun _ => Panic msg.

Definition lift {A} (r : result A) : M A :=
  fun st =>
    match r with
    | Done a => Done (a, st)
    | Panic msg => Panic msg
    | OutOfFuel => OutOfFuel
    end.

Notation "'let*' x ':=' m 'in' k" := (bind m (fun x => k))
  (at level 10, x name, m at level 100, k at level 200, only parsing).
Notation "'let*' ' p ':=' m 'in' k" := (bind m (fun x => let 'p := x in k))
  (at level 10, p pattern, m at level 100, k at level 200, only parsing).

(** ** document.go *)

Section Walker.

Context {W : World}.

(** [document.Sections = append(document.Sections,
    Section{Name: name, Description: description})] *)
Definition openSection (name description : string) : M unit :=
  fun st =>
    Done (tt, {| document :=
                   {| Sections := Sections (document st)
                                  ++ [{| sName := name;
                                         sDescription := description;
                                         sProperties := [] |}] |};
                 diagnostics := diagnostics st;
                 discovered := discovered st |}).

(** [s.Properties = append(s.Properties, p)] *)
Definition addProperty (p : DocProperty) (s : DocSection) : DocSection :=
  {| sName := sName s;
     sDescription := sDescription s;
     sProperties := sProperties s ++ [p] |}.

(** [sectionIdx := len(document.Sections) - 1] followed by
    [document.Sections[sectionIdx].Properties = append(..., p)], as written
    at both places that create a property; indexing an empty slice at -1
    panics. *)
Definition appendProperty (p : DocProperty) : M unit :=
  fun st =>
    let sectionIdx := (Z.of_nat (length (Sections (document st))) - 1)%Z in
    if (sectionIdx <? 0)%Z then Panic "index out of range [-1]"
    else
      Done (tt, {| document :=
                     {| Sections := alter (addProperty p) (Z.to_nat sectionIdx)
                                      (Sections (document st)) |};
                   diagnostics := diagnostics st;
                   discovered := discovered st ++ [p] |}).

(** [log.Println(msg)] *)
Definition logPrintln (msg : string) : M unit :=
  fun st =>
    Done (tt, {| document := document st;
                 diagnostics := diagnostics st ++ [msg];
                 discovered := discovered st |}).

(** [getTypeOf]: the [docs:type] value if there is one, else a name for
    the short tag of the raw node. *)
Definition getTypeOf (node : Node) (comment : Comment) : string :=
  let typ := Tags_GetString (cTags comment) TagType in
  if negb (String.eqb typ "") then typ
  else
    match nRawNode node with
    | None => "unknown"
    | Some raw =>
        let tag := Node_ShortTag raw in
        if String.eqb tag "!!bool" then "bool"
        else if String.eqb tag "!!str" then "string"
        else if String.eqb tag "!!int" then "number"
        else if String.eqb tag "!!float" then "number"
        else if String.eqb tag "!!timestamp" then "timestamp"
        else if String.eqb tag "!!seq" then "array"
        else if String.eqb tag "!!map" then "object"
        else "unknown"
    end.

(** [getDefaultValue]: the [docs:default] value if there is one, else the
    raw node decoded to a Go value, encoded again with an indent of 2 and
    trimmed.  The errors of the yaml calls are dropped by the source. *)
Definition getDefaultValue (n : Node) (c : Comment) : result string :=
  let def := Tags_GetString (cTags c) TagDefault in
  if negb (String.eqb def "") then Done def
  else
    match nRawNode n with
    | None => Panic "nil pointer dereference"
    | Some raw =>
        let value := Node_Decode raw in
        let clone := Node_Encode value in
        Done (strings_TrimSpace (Encoder_Encode 2 clone))
    end.

(** [isEndNode]: the cases of the [switch], in order. *)
Definition isEndNode (n : Node) (c : Comment) : result bool :=
  match nRawNode n with
  | None => Panic "nil pointer dereference"
  | Some raw =>
      match Kind (mem raw) with
      | DocumentNode => Done false
      | ScalarNode => Done true
      | k =>
          if Tags_GetBool (cTags c) TagProperty then Done true
          else
            match k with
            | MappingNode => Done (length (Content (mem raw)) =? 0)%nat
            | SequenceNode => Done (length (Content (mem raw)) =? 0)%nat
            | _ => Done false
            end
      end
  end.

(** The scan for a code block: [codeIdx] starts at -1 and is overwritten
    at every section of type code. *)
Fixpoint findCodeIdx (i : Z) (sections : list CommentSection) (codeIdx : Z)
  : Z :=
  match sections with
  | [] => codeIdx
  | section :: rest =>
      findCodeIdx (i + 1) rest
        (match csType section with
         | CommentTypeCode => i
         | CommentTypeText => codeIdx
         end)
  end.

(** The sections of the comment but the one at [codeIdx]. *)
Fixpoint dropSection (i codeIdx : Z) (sections : list CommentSection)
  : list CommentSection :=
  match sections with
  | [] => []
  | section :: rest =>
      if (i =? codeIdx)%Z then dropSection (i + 1) codeIdx rest
      else section :: dropSection (i + 1) codeIdx rest
  end.

(** The three nested tests on the unmarshalled code block: a document with
    content, whose first child is a mapping of exactly one key and value. *)
Definition singleKeyMapping (path : Path) (parsedNode : Node)
  (node : yaml_Node) : option Node :=
  match Content node with
  | [] => None
  | first :: _ =>
      match Kind (mem first) with
      | MappingNode =>
          match Content (mem first) with
          | [keyNode; valueNode] =>
              Some {| nPath := Path_WithProperty path (Value (mem keyNode));
                      nHeadComments := nHeadComments parsedNode;
                      nFootComment := nFootComment parsedNode;
                      nRawNode := Some valueNode |}
          | _ => None
          end
      | _ => None
      end
  end.

Definition syntheticProperty (name : string) (parsedNode : Node)
  (comment : Comment) : DocProperty :=
  {| pName := name;
     pDescription := comment;
     pType := getTypeOf parsedNode comment;
     pDefault := "undefined" |}.

(** [parsedNode := Node{HeadComments: Comments{comment}}] *)
Definition unparsedNode (comment : Comment) : Node :=
  {| nPath := [];
     nHeadComments := [comment];
     nFootComment := [];
     nRawNode := None |}.

(** The search for a code block and the inference from it, in the
    [docs:property] case of [parseCommentsOntoDocument]: the node the
    property is read from and the comment it is described by. *)
Definition inferFromCode (path : Path) (comment : Comment)
  : result (Node * Comment) :=
  let codeIdx := findCodeIdx 0 (cSections comment) (-1) in
  let parsedNode := unparsedNode comment in
  if (codeIdx =? -1)%Z then Done (parsedNode, comment)
  else
    match cSections comment !! Z.to_nat codeIdx with
    | None => Panic "index out of range"
    | Some codeSection =>
        let node := yaml_Unmarshal (CommentSection_String codeSection) in
        match singleKeyMapping path parsedNode node with
        | Some parsed =>
            Done (parsed,
                  {| cTags := cTags comment;
                     cSections := dropSection 0 codeIdx
                                    (cSections comment) |})
        | None => Done (parsedNode, comment)
        end
    end.

(** One iteration of the loop of [parseCommentsOntoDocument]. *)
Definition parseCommentOntoDocument (path : Path) (comment : Comment)
  : M unit :=
  if Tags_GetBool (cTags comment) TagSection then
    openSection (Tags_GetString (cTags comment) TagSection)
      (Comment_String comment)
  else if Tags_GetBool (cTags comment) TagProperty then
    let* '(parsedNode, comment) := lift (inferFromCode path comment) in
    let name := Tags_GetString (cTags comment) TagProperty in
    if String.eqb name "" then
      let name := Path_String (nPath parsedNode) in
      if String.eqb name "" then
        logPrintln "could not calculate undefined property name"
      else appendProperty (syntheticProperty name parsedNode comment)
    else appendProperty (syntheticProperty name parsedNode comment)
  else ret tt.

Fixpoint parseCommentsOntoDocument (path : Path) (comments : Comments)
  : M unit :=
  match comments with
  | [] => ret tt
  | comment :: rest =>
      let* _ := parseCommentOntoDocument path comment in
      parseCommentsOntoDocument path rest
  end.

(** The children loops of [walk]; [rec] is the recursive call
    [walk(n, fn)]. *)
Fixpoint walkSequence (rec : Node -> M (option error)) (root : Node)
  (raw : yaml_Node) (i : nat) (content : list ptr) : M (option error) :=
  match content with
  | [] => ret None
  | node :: rest =>
      let n := {| nPath := Path_WithIndex (nPath root) i;
                  nHeadComments := ParseComment (HeadComment raw);
                  nFootComment := ParseComment (FootComment raw);
                  nRawNode := Some node |} in
      let* err := rec n in
      match err with
      | Some e => ret (Some e)
      | None => walkSequence rec root raw (S i) rest
      end
  end.

Fixpoint walkMapping (rec : Node -> M (option error)) (root : Node)
  (content : list ptr) : M (option error) :=
  match content with
  | [] => ret None
  | [_] => panic "index out of range"
  | keyNode :: valueNode :: rest =>
      let n := {| nPath := Path_WithProperty (nPath root)
                             (Value (mem keyNode));
                  nHeadComments := ParseComment (HeadComment (mem keyNode));
                  nFootComment := ParseComment (FootComment (mem keyNode));
                  nRawNode := Some valueNode |} in
      let* err := rec n in
      match err with
      | Some e => ret (Some e)
      | None => walkMapping rec root rest
      end
  end.

Fixpoint walkDocument (rec : Node -> M (option error)) (root : Node)
  (content : list ptr) : M (option error) :=
  match content with
  | [] => ret None
  | node :: rest =>
      let n := {| nPath := nPath root;
                  nHeadComments := ParseComment (HeadComment (mem node));
                  nFootComment := ParseComment (FootComment (mem node));
                  nRawNode := Some node |} in
      let* err := rec n in
      match err with
      | Some e => ret (Some e)
      | None => walkDocument rec root rest
      end
  end.

(** [walk]; the recursion of the source is not structural in the presence
    of alias pointers, so the embedding counts calls down from [fuel]. *)
Fixpoint walk (fuel : nat) (fn : Node -> M (bool * option error))
  (root : Node) : M (option error) :=
  match fuel with
  | O => fun _ => OutOfFuel
  | S fuel' =>
      let* '(stop, err) := fn root in
      match err with
      | Some e => ret (Some e)
      | None =>
          if stop then ret None
          else
            match nRawNode root with
            | None => panic "nil pointer dereference"
            | Some p =>
                let raw := mem p in
                match Kind raw with
                | SequenceNode =>
                    walkSequence (walk fuel' fn) root raw 0 (Content raw)
                | MappingNode =>
                    walkMapping (walk fuel' fn) root (Content raw)
                | DocumentNode =>
                    walkDocument (walk fuel' fn) root (Content raw)
                | AliasNode =>
                    let n := {| nPath := nPath root;
                                nHeadComments :=
                                  ParseComment (HeadComment raw);
                                nFootComment :=
                                  ParseComment (FootComment raw);
                                nRawNode := Alias raw |} in
                    let* err := walk fuel' fn n in
                    match err with
                    | Some e => ret (Some e)
                    | None => ret None
                    end
                | _ => ret None
                end
            end
      end
  end.

(** The part of the callback of [Load] between the [defer] and the
    return. *)
Definition visitBody (node : Node) (comment : Comment)
  : M (bool * option error) :=
  if Tags_GetBool (cTags comment) TagIgnore then ret (true, None)
  else
    let* isEnd := lift (isEndNode node comment) in
    if negb isEnd then
      let* _ := parseCommentsOntoDocument (Path_Parent (nPath node))
                  [comment] in
      ret (false, None)
    else
      let* def := lift (getDefaultValue node comment) in
      let* _ := appendProperty {| pName := Path_String (nPath node);
                                  pDescription := comment;
                                  pType := getTypeOf node comment;
                                  pDefault := def |} in
      ret (true, None).

(** The callback [Load] hands to [walk]. [Pop] shortens the callback's own
    copy of the head comments; the deferred call runs when the body has
    returned. *)
Definition visit (node : Node) : M (bool * option error) :=
  let '(comment, _, remaining) := Comments_Pop (nHeadComments node) in
  let* _ := parseCommentsOntoDocument (Path_Parent (nPath node)) remaining in
  let* r := visitBody node comment in
  let* _ := parseCommentsOntoDocument (Path_Parent (nPath node))
              (nFootComment node) in
  ret r.

Definition emptyAssembly : Assembly :=
  {| document := {| Sections := [zeroSection] |};
     diagnostics := [];
     discovered := [] |}.

Definition rootNode (root : ptr) : Node :=
  {| nPath := [];
     nHeadComments := ParseComment (HeadComment (mem root));
     nFootComment := ParseComment (FootComment (mem root));
     nRawNode := Some root |}.

(** The walk of [Load] over a decoded root, from the one-section document. *)
Definition build (fuel : nat) (root : ptr) : result (option error * Assembly) :=
  walk fuel visit (rootNode root) emptyAssembly.

(** [Load]; [decoded] is what opening and decoding the file gave: an error
    or the root node. *)
Definition Load (fuel : nat) (decoded : error + ptr)
  : result (option Document * option error) :=
  match decoded with
  | inl e => Done (None, Some e)
  | inr root =>
      match build fuel root with
      | Done (err, st) => Done (Some (document st), err)
      | Panic msg => Panic msg
      | OutOfFuel => OutOfFuel
      end
  end.

(** ** Notions used in the statements *)

(** The child [Node]s the three loops and the alias case of [walk] build
    for a node, in visiting order. *)
Definition sequenceChild (root : Node) (raw : yaml_Node) (i : nat)
  (node : ptr) : Node :=
  {| nPath := Path_WithIndex (nPath root) i;
     nHeadComments := ParseComment (HeadComment raw);
     nFootComment := ParseComment (FootComment raw);
     nRawNode := Some node |}.

Definition sequenceChildren (root : Node) (raw : yaml_Node) : list Node :=
  imap (sequenceChild root raw) (Content raw).

Definition mappingChild (root : Node) (keyNode valueNode : ptr) : Node :=
  {| nPath := Path_WithProperty (nPath root) (Value (mem keyNode));
     nHeadComments := ParseComment (HeadComment (mem keyNode));
     nFootComment := ParseComment (FootComment (mem keyNode));
     nRawNode := Some valueNode |}.

Fixpoint mappingChildren (root : Node) (content : list ptr) : list Node :=
  match content with
  | keyNode :: valueNode :: rest =>
      mappingChild root keyNode valueNode :: mappingChildren root rest
  | _ => []
  end.

Definition documentChild (root : Node) (node : ptr) : Node :=
  {| nPath := nPath root;
     nHeadComments := ParseComment (HeadComment (mem node));
     nFootComment := ParseComment (FootComment (mem node));
     nRawNode := Some node |}.

Definition aliasChild (root : Node) (raw : yaml_Node) : Node :=
  {| nPath := nPath root;
     nHeadComments := ParseComment (HeadComment raw);
     nFootComment := ParseComment (FootComment raw);
     nRawNode := Alias raw |}.

Definition childNodes (root : Node) (raw : yaml_Node) : list Node :=
  match Kind raw with
  | SequenceNode => sequenceChildren root raw
  | MappingNode => mappingChildren root (Content raw)
  | DocumentNode => map (documentChild root) (Content raw)
  | AliasNode => [aliasChild root raw]
  | _ => []
  end.

(** Walking a list of nodes in order, stopping at the first error. *)
Fixpoint walkNodes (rec : Node -> M (option error)) (nodes : list Node)
  : M (option error) :=
  match nodes with
  | [] => ret None
  | n :: rest =>
      let* err := rec n in
      match err with
      | Some e => ret (Some e)
      | None => walkNodes rec rest
      end
  end.

(** [n'] is one of the nodes the walk recurses into from [n]. *)
Definition descends (n n' : Node) : Prop :=
  exists p, nRawNode n = Some p /\ In n' (childNodes n (mem p)).

(** The callback of [Load] never asks the walk to stop at [n]. *)
Definition entered (n : Node) : Prop :=
  forall st stop err st',
    visit n st = Done ((stop, err), st') -> stop = false.

(** A set of walker nodes closed under some descent the walk performs:
    what an alias cycle of the tree amounts to for the walk. *)
Definition alias_cycle (C : Node -> Prop) : Prop :=
  forall n, C n -> entered n /\ exists n', descends n n' /\ C n'.

(** The tree below [p] is finite of depth less than [depth], every mapping
    has as many values as keys, and every alias node has its target. *)
Fixpoint wf_tree (depth : nat) (p : ptr) : bool :=
  match depth with
  | O => false
  | S depth' =>
      match Kind (mem p) with
      | SequenceNode | DocumentNode =>
          forallb (wf_tree depth') (Content (mem p))
      | MappingNode =>
          Nat.even (length (Content (mem p)))
          && forallb (wf_tree depth') (Content (mem p))
      | AliasNode =>
          match Alias (mem p) with
          | Some target => wf_tree depth' target
          | None => false
          end
      | _ => true
      end
  end.

Definition is_text (s : CommentSection) : Prop := csType s = CommentTypeText.

(** The unmarshalled code block [node] is a document whose first child is a
    mapping of the single key [keyNode] with the value [valueNode]. *)
Definition single_key_mapping (node : yaml_Node) (keyNode valueNode : ptr)
  : Prop :=
  exists first rest,
    Content node = first :: rest
    /\ Kind (mem first) = MappingNode
    /\ Content (mem first) = [keyNode; valueNode].

(** The assembly [st] after the diagnostic of a property comment that
    yields no name. *)
Definition unnamed (st : Assembly) : Assembly :=
  {| document := document st;
     diagnostics :=
       diagnostics st ++ ["could not calculate undefined property name"];
     discovered := discovered st |}.

(** The properties of the document, section after section. *)
Definition properties (st : Assembly) : list DocProperty :=
  concat (map sProperties (Sections (document st))).

(** The document of [st'] holds the properties of the document of [st]
    followed by new ones, which all satisfy [P]. *)
Definition adds_only (P : DocProperty -> Prop) (st st' : Assembly) : Prop :=
  exists added,
    properties st' = properties st ++ added /\ Forall P added.

Definition no_section (c : Comment) : Prop :=
  Tags_GetBool (cTags c) TagSection = false.

(** No comment of the tree carries a [docs:section] directive. *)
Definition NoSectionDirectives : Prop :=
  forall (p : ptr) (c : Comment),
    In c (ParseComment (HeadComment (mem p)))
    \/ In c (ParseComment (FootComment (mem p))) ->
    no_section c.

(** What [walk] does once the callback has returned without stopping. *)
Definition finish (raw : yaml_Node) (err : option error) : M (option error) :=
  match err with
  | Some e => ret (Some e)
  | None =>
      match Kind raw with
      | MappingNode =>
          if Nat.odd (length (Content raw)) then panic "index out of range"
          else ret None
      | _ => ret None
      end
  end.

(** An invariant kept by the three ways the code changes the assembly;
    opening a section need only keep it under [A]. *)
Record stable (A : Prop) (I : Assembly -> Prop) : Prop := mkStable {
  stable_open : forall name description st st',
    A -> I st -> openSection name description st = Done (tt, st') -> I st';
  stable_append : forall p st st',
    I st -> appendProperty p st = Done (tt, st') -> I st';
  stable_log : forall msg st st',
    I st -> logPrintln msg st = Done (tt, st') -> I st'
}.

(** The comments of a node carry no section directive, unless [A]. *)
Definition admissible (A : Prop) (n : Node) : Prop :=
  A \/ (Forall no_section (nHeadComments n)
        /\ Forall no_section (nFootComment n)).

(** The assembly [st], whose sections are [init] followed by [s], after
    property [p] has been appended to [s]. *)
Definition appended (p : DocProperty) (init : list DocSection)
  (s : DocSection) (st : Assembly) : Assembly :=
  {| document := {| Sections := init ++ [addProperty p s] |};
     diagnostics := diagnostics st;
     discovered := discovered st ++ [p] |}.

(** The document has a section. *)
Definition nonempty (st : Assembly) : Prop := Sections (document st) <> [].

(** The first section of the document is the unnamed root section. *)

Definition rooted (st : Assembly) : Prop :=
  exists ps rest,
    Sections (document st)
    = {| sName := ""; sDescription := ""; sProperties := ps |} :: rest.

(** The sections hold, in order, exactly the properties appended so far. *)
Definition accounted (st : Assembly) : Prop :=
  concat (map sProperties (Sections (document st))) = discovered st.

(** The root section is the only one and holds every property appended so
    far. *)
Definition single (st : Assembly) : Prop :=
  Sections (document st)
  = [{| sName := ""; sDescription := ""; sProperties := discovered st |}].

End Walker.

(** ** A sample world

    Concrete trees and the results of the library calls on the strings that
    occur in them, used to evaluate the embedding on concrete inputs. *)

Module Sample.

Definition scalar (tag value head : string) : yaml_Node :=
  {| Kind := ScalarNode; Tag := tag; Value := value; Alias := None;
     Content := []; HeadComment := head; FootComment := "" |}.

Definition collection (kind : yaml_Kind) (tag head : string)
  (content : list ptr) : yaml_Node :=
  {| Kind := kind; Tag := tag; Value := ""; Alias := None;
     Content := content; HeadComment := head; FootComment := "" |}.

Definition zeroNode : yaml_Node :=
  {| Kind := ZeroKind; Tag := ""; Value := ""; Alias := None;
     Content := []; HeadComment := ""; FootComment := "" |}.

(** Node memory.

    Pointers 0-11 hold the decoded form of
<<
    replicas: 1
    # list of ports
    ports:
      - 80
      - 443
    # +docs:ignore
    secret:
      token: abc
>>
    (the sequence node itself carries the comment text "each port");
    20-22 and 24-26 are the nodes [yaml.Unmarshal] allocates for the code
    blocks [first: 1] and [second: two]; 30-32 hold [&a [*a]], a sequence
    whose only element is an alias of the sequence itself. *)
Definition sample_mem (p : ptr) : yaml_Node :=
  match p with
  | 0 => collection DocumentNode "" "" [1]
  | 1 => collection MappingNode "!!map" "" [2; 3; 4; 5; 6; 7]
  | 2 => scalar "!!str" "replicas" ""
  | 3 => scalar "!!int" "1" ""
  | 4 => scalar "!!str" "ports" "list of ports"
  | 5 => collection SequenceNode "!!seq" "each port" [8; 9]
  | 6 => scalar "!!str" "secret" "+docs:ignore"
  | 7 => collection MappingNode "!!map" "" [10; 11]
  | 8 => scalar "!!int" "80" ""
  | 9 => scalar "!!int" "443" ""
  | 10 => scalar "!!str" "token" ""
  | 11 => scalar "!!str" "abc" ""
  | 20 => collection MappingNode "!!map" "" [21; 22]
  | 21 => scalar "!!str" "first" ""
  | 22 => scalar "!!int" "1" ""
  | 24 => collection MappingNode "!!map" "" [25; 26]
  | 25 => scalar "!!str" "second" ""
  | 26 => scalar "!!str" "two" ""
  | 30 => collection DocumentNode "" "" [31]
  | 31 => collection SequenceNode "!!seq" "" [32]
  | 32 => {| Kind := AliasNode; Tag := ""; Value := "a"; Alias := Some 31;
             Content := []; HeadComment := ""; FootComment := "" |}
  | _ => zeroNode
  end.

Definition text (s : string) : CommentSection :=
  {| csType := CommentTypeText; csContent := s |}.

Definition code (s : string) : CommentSection :=
  {| csType := CommentTypeCode; csContent := s |}.

Definition directive (name value : string) : Tags := {[ name := value ]}.

(** What the comment parser yields on the comment texts of [sample_mem]. *)
Definition sample_ParseComment (s : string) : Comments :=
  if String.eqb s "list of ports" then
    [{| cTags := ∅; cSections := [text "list of ports"] |}]
  else if String.eqb s "each port" then
    [{| cTags := ∅; cSections := [text "each port"] |}]
  else if String.eqb s "+docs:ignore" then
    [{| cTags := directive TagIgnore ""; cSections := [] |}]
  else [].

Fixpoint join_sections (l : list CommentSection) : string :=
  match l with
  | [] => ""
  | [s] => csContent s
  | s :: rest => csContent s +:+ String "010" (join_sections rest)
  end.

(** What [yaml.Unmarshal] stores in its target for the two code blocks; any
    other input leaves the target at its zero value. *)
Definition sample_Unmarshal (s : string) : yaml_Node :=
  if String.eqb s "first: 1" then collection DocumentNode "" "" [20]
  else if String.eqb s "second: two" then collection DocumentNode "" "" [24]
  else zeroNode.

Definition is_space (c : ascii) : bool :=
  Ascii.eqb c " " || in_range 9 13 c.

Fixpoint trim_left (s : string) : string :=
  match s with
  | String c rest => if is_space c then trim_left rest else s
  | EmptyString => EmptyString
  end.

Definition trim (s : string) : string :=
  String.rev (trim_left (String.rev (trim_left s))).

#[export] Instance sample_world : World :=
  {| mem := sample_mem;
     ParseComment := sample_ParseComment;
     Comment_String := fun c => join_sections (cSections c);
     CommentSection_String := csContent;
     yaml_Unmarshal := sample_Unmarshal;
     Node_ShortTag := fun p => Tag (sample_mem p);
     GoValue := string;
     Node_Decode := fun p => Value (sample_mem p);
     Node_Encode := fun v => scalar "" v "";
     Encoder_Encode := fun _ n => Value n +:+ String "010" EmptyString;
     strings_TrimSpace := trim |}.

Definition propertyComment (value : string) (sections : list CommentSection)
  : Comment :=
  {| cTags := directive TagProperty value; cSections := sections |}.

(** A property comment with two code blocks and no explicit name. *)
Definition twoBlocks : Comment :=
  propertyComment "" [code "first: 1"; code "second: two"].

(** A property comment with an explicit name and a code block. *)
Definition namedBlock : Comment :=
  propertyComment "explicit.name" [code "first: 1"].

(** A property comment with prose and a code block, and no explicit
    name. *)
Definition inferredBlock : Comment :=
  propertyComment "" [text "the first value"; code "first: 1"].

(** A property comment with an explicit name and an explicit default. *)
Definition namedDefault : Comment :=
  {| cTags := <[TagDefault := "42"]> (directive TagProperty "extra");
     cSections := [text "an extra value"] |}.

(** The walker nodes of [ports] and [secret] in the first tree. *)
Definition mappingNode : Node :=
  {| nPath := []; nHeadComments := []; nFootComment := [];
     nRawNode := Some 1 |}.

Definition portsNode : Node := mappingChild mappingNode 4 5.

Definition secretNode : Node := mappingChild mappingNode 6 7.

(** A node for [replicas] whose directive comment gives a type. *)
Definition typedComment : Comment :=
  {| cTags := directive TagType "integer"; cSections := [] |}.

Definition replicasNode : Node := mappingChild mappingNode 2 3.

(** The walker nodes met on the cycle of the third tree. *)
Definition on_cycle (n : Node) : Prop :=
  nHeadComments n = [] /\ nFootComment n = []
  /\ (nRawNode n = Some 31 \/ nRawNode n = Some 32).

Definition cycleNode (path : Path) (raw : ptr) : Node :=
  {| nPath := path; nHeadComments := []; nFootComment := [];
     nRawNode := Some raw |}.

(** The properties of an assembly, by name, type and default. *)
Definition summary (r : result (unit * Assembly))
  : list (string * string * string) :=
  match r with
  | Done (_, st) =>
      map (fun p => (pName p, pType p, pDefault p)) (discovered st)
  | _ => []
  end.

Definition descriptions (r : result (unit * Assembly))
  : list (list CommentSection) :=
  match r with
  | Done (_, st) => map (fun p => cSections (pDescription p)) (discovered st)
  | _ => []
  end.

End Sample.

(** ** Further notions about the walker *)

Section Traversal.

Context {W : World}.

(** The walker nodes a walk calls its callback on, in calling order, when
    the callback stops exactly at the nodes [stopAt] holds for; [depth]
    bounds the nesting as [fuel] does in [walk]. *)
Fixpoint preorder (stopAt : Node -> bool) (depth : nat) (n : Node)
  : list Node :=
  match depth with
  | O => []
  | S depth' =>
      n :: (if stopAt n then []
            else
              match nRawNode n with
              | None => []
              | Some p =>
                  flat_map (preorder stopAt depth') (childNodes n (mem p))
              end)
  end.

(** Whether the callback of [Load] asks to stop at a node: its directive
    comment sets [docs:ignore], or the node is an end node. *)
Definition visitStops (n : Node) : bool :=
  let '(comment, _, _) := Comments_Pop (nHeadComments n) in
  Tags_GetBool (cTags comment) TagIgnore
  || match isEndNode n comment with
     | Done isEnd => isEnd
     | _ => false
     end.

(** The assembly after one call of the callback of [Load]. *)
Definition visitStep (n : Node) (st : Assembly) : Assembly :=
  match visit n st with
  | Done (_, st') => st'
  | _ => st
  end.

(** Section [s'] is section [s] with properties added at the end. *)
Definition section_extends (s s' : DocSection) : Prop :=
  sName s' = sName s /\ sDescription s' = sDescription s
  /\ sProperties s `prefix_of` sProperties s'.

(** Assembly [st'] is [st] grown: every section of [st] is still there, at
    the same index, with the same name and description and with its
    properties as a prefix; the log and the list of properties discovered
    have only been added to at the end. *)
Definition grows (st st' : Assembly) : Prop :=
  (forall i s,
      Sections (document st) !! i = Some s ->
      exists s', Sections (document st') !! i = Some s'
                 /\ section_extends s s')
  /\ discovered st `prefix_of` discovered st'
  /\ diagnostics st `prefix_of` diagnostics st'.

(** The section a [docs:section] comment opens. *)
Definition sectionOf (c : Comment) : DocSection :=
  {| sName := Tags_GetString (cTags c) TagSection;
     sDescription := Comment_String c;
     sProperties := [] |}.

(** The comment carries neither [docs:section] nor [docs:property]. *)
Definition plain (c : Comment) : Prop :=
  Tags_GetBool (cTags c) TagSection = false
  /\ Tags_GetBool (cTags c) TagProperty = false.

Definition isText (s : CommentSection) : bool :=
  match csType s with
  | CommentTypeText => true
  | CommentTypeCode => false
  end.

(** The property the callback of [Load] emits for the scalar value
    [valueNode] of key [keyNode] in a mapping at [path], when the key has
    no comment. *)
Definition scalarProperty (path : Path) (kv : ptr * ptr) : DocProperty :=
  let child := {| nPath := Path_WithProperty path (Value (mem (fst kv)));
                  nHeadComments := [];
                  nFootComment := [];
                  nRawNode := Some (snd kv) |} in
  {| pName := Path_String (nPath child);
     pDescription := zeroComment;
     pType := getTypeOf child zeroComment;
     pDefault := strings_TrimSpace
                   (Encoder_Encode 2 (Node_Encode (Node_Decode (snd kv)))) |}.

(** The property the callback of [Load] emits for the scalar element
    [element] at index [i] of a sequence at [path], when the sequence node
    has no comment. *)
Definition elementProperty (path : Path) (i : nat) (element : ptr)
  : DocProperty :=
  let child := {| nPath := Path_WithIndex path i;
                  nHeadComments := [];
                  nFootComment := [];
                  nRawNode := Some element |} in
  {| pName := Path_String (nPath child);
     pDescription := zeroComment;
     pType := getTypeOf child zeroComment;
     pDefault := strings_TrimSpace
                   (Encoder_Encode 2 (Node_Encode (Node_Decode element))) |}.

(** Assembly [st], whose sections are [init] followed by [s], after the
    properties [ps] have been appended to [s] one by one. *)
Definition appendedAll (ps : list DocProperty) (init : list DocSection)
  (s : DocSection) (st : Assembly) : Assembly :=
  {| document :=
       {| Sections := init ++ [{| sName := sName s;
                                  sDescription := sDescription s;
                                  sProperties := sProperties s ++ ps |}] |};
     diagnostics := diagnostics st;
     discovered := discovered st ++ ps |}.

End Traversal.

Module TraversalSample.

Import Sample.

(** A callback that logs the path of every node and never stops. *)
Definition logStep (n : Node) (st : Assembly) : Assembly :=
  {| document := document st;
     diagnostics := diagnostics st ++ [Path_String (nPath n)];
     discovered := discovered st |}.

Definition logPaths (n : Node) : M (bool * option error) :=
  let* _ := logPrintln (Path_String (nPath n)) in
  ret (false, None).

Definition proseComment : Comment :=
  {| cTags := ∅; cSections := [text "list of ports"] |}.

Definition sectionComment (name : string) : Comment :=
  {| cTags := <[TagProperty := "dropped"]> (directive TagSection name);
     cSections := [text name] |}.

(** A sequence of two integers, with no comment anywhere. *)
Definition plainSequence (p : ptr) : yaml_Node :=
  match p with
  | 0 => collection SequenceNode "!!seq" "" [1; 2]
  | 1 => scalar "!!int" "80" ""
  | 2 => scalar "!!int" "443" ""
  | _ => zeroNode
  end.

Definition sequence_world : World :=
  {| mem := plainSequence;
     ParseComment := sample_ParseComment;
     Comment_String := fun c => join_sections (cSections c);
     CommentSection_String := csContent;
     yaml_Unmarshal := sample_Unmarshal;
     Node_ShortTag := fun p => Tag (plainSequence p);
     GoValue := string;
     Node_Decode := fun p => Value (plainSequence p);
     Node_Encode := fun v => scalar "" v "";
     Encoder_Encode := fun _ n => Value n +:+ String "010" EmptyString;
     strings_TrimSpace := trim |}.

Definition portsSequence : Node :=
  {| nPath := [stringPathComponent "ports"];
     nHeadComments := []; nFootComment := [];
     nRawNode := Some 0 |}.

Definition tokenMapping : Node :=
  {| nPath := [stringPathComponent "secret"];
     nHeadComments := []; nFootComment := [];
     nRawNode := Some 7 |}.

End TraversalSample.

(** ** Package render: templates and injection into a file *)

From Stdlib.Strings Require Byte.

Definition bytes : Type := list Byte.byte.

(** An open [*os.File]: the bytes of the file and the offset of the next
    read or write. *)
Record File : Type := mkFile {
  fData : bytes;
  fOffset : nat
}.

(** [file.Truncate(size)]: the file is cut, or padded with zero bytes, to
    [size]; the offset does not move. *)
Definition File_Truncate (size : nat) (f : File) : File :=
  {| fData := take size (fData f)
              ++ replicate (size - length (fData f)) Byte.x00;
     fOffset := fOffset f |}.

(** [file.Seek(offset, 0)]: the offset is set from the start of the
    file. *)
Definition File_Seek (offset : nat) (f : File) : File :=
  {| fData := fData f; fOffset := offset |}.

(** [file.Write(b)]: [b] overwrites the file from the offset on, after
    zero bytes if the offset is past the end, and the offset moves past
    what was written. *)
Definition File_Write (b : bytes) (f : File) : File :=
  let padded :=
    fData f ++ replicate (fOffset f - length (fData f)) Byte.x00 in
  {| fData := take (fOffset f) padded ++ b
              ++ drop (fOffset f + length b) padded;
     fOffset := fOffset f + length b |}.

(** What the functions of package render call but do not define: the
    operating system, the embedded template directory, text/template and
    regexp. *)
Class RenderWorld : Type := mkRenderWorld {
  fsFile : Type;
  os_Open : string -> error + fsFile;
  os_IsNotExist : error -> bool;
  templates_Open : string -> error + fsFile;
  fs_ReadAll : fsFile -> bytes * option error;
  Template : Type;
  template_Parse : string -> string -> error + Template;
  template_Execute : Template -> Document -> string * option error;
  io_ReadAll : File -> bytes * option error * File;
  Regexp : Type;
  Regexp_FindIndex : Regexp -> bytes -> option (nat * nat)
}.

Section Render.

Context {R : RenderWorld}.

(** [openTemplate]: the file on disk, or the embedded template of the same
    name when there is no such file. *)
Definition openTemplate (path : string) : error + fsFile :=
  match os_Open path with
  | inl err =>
      if os_IsNotExist err then templates_Open path
      else inl err
  | inr file => inr file
  end.

(** [Render] *)
Definition Render (templateName : string) (document : Document)
  : error + string :=
  match openTemplate templateName with
  | inl err => inl err
  | inr tpl =>
      match fs_ReadAll tpl with
      | (_, Some err) => inl err
      | (templateBytes, None) =>
          match template_Parse templateName
                  (string_of_list_byte templateBytes) with
          | inl err => inl err
          | inr template =>
              match template_Execute template document with
              | (_, Some err) => inl err
              | (written, None) => inr written
              end
          end
      end
  end.

(** [s[low:]] and [s[:high]]; an index past the length is taken to
    panic. *)
Definition sliceFrom (low : nat) (s : bytes) : result bytes :=
  if (low <=? length s)%nat then Done (drop low s)
  else Panic "slice bounds out of range".

Definition sliceTo (high : nat) (s : bytes) : result bytes :=
  if (high <=? length s)%nat then Done (take high s)
  else Panic "slice bounds out of range".

(** [Inject]; [opened] is what [os.OpenFile(path, os.O_RDWR, 0666)] gave.
    The result is the error returned and the state the opened file is left
    in.  The results of [Truncate], [Seek] and [Write] are not looked at
    by the source; they are taken to succeed. *)
Definition Inject (opened : error + File) (templateName : string)
  (document : Document) (headerMatch footerMatch : Regexp)
  : result (option error * option File) :=
  match opened with
  | inl err => Done (Some err, None)
  | inr file =>
      let '(fileContents, readErr, file) := io_ReadAll file in
      match readErr with
      | Some err => Done (Some err, Some file)
      | None =>
          match Regexp_FindIndex headerMatch fileContents with
          | None =>
              Done (Some (mkError "could not find parameters tag"), Some file)
          | Some (_, start) =>
              match sliceFrom start fileContents with
              | Panic msg => Panic msg
              | OutOfFuel => OutOfFuel
              | Done tail =>
                  let endIdx := Regexp_FindIndex footerMatch tail in
                  let end_ :=
                    match endIdx with
                    | Some (first, _) => start + first
                    | None => length fileContents
                    end in
                  match Render templateName document with
                  | inl _ =>
                      Done (Some (mkError
                              "could not render documentation from template"),
                            Some file)
                  | inr renderedDocument =>
                      match sliceTo start fileContents,
                            sliceFrom end_ fileContents with
                      | Done header, Done footer =>
                          let content :=
                            list_byte_of_string
                              (renderedDocument +:+ String "010" "") in
                          Done (None,
                                Some (File_Write footer
                                        (File_Write content
                                           (File_Write header
                                              (File_Seek 0
                                                 (File_Truncate 0 file))))))
                      | Panic msg, _ => Panic msg
                      | _, Panic msg => Panic msg
                      | _, _ => OutOfFuel
                      end
                  end
              end
          end
      end
  end.

(** The value of [end] in [Inject]: where the footer starts in
    [contents], searched from [start] on, or the length of [contents] when
    there is none. *)
Definition footerStart (footerMatch : Regexp) (start : nat)
  (contents : bytes) : nat :=
  match Regexp_FindIndex footerMatch (drop start contents) with
  | Some (first, _) => start + first
  | None => length contents
  end.

(** The bytes [Inject] writes for [contents]: what precedes [start], the
    rendered document and a newline, and what follows [finish]. *)
Definition spliced (contents : bytes) (start finish : nat)
  (renderedDocument : string) : bytes :=
  take start contents
  ++ list_byte_of_string (renderedDocument +:+ String "010" "")
  ++ drop finish contents.

End Render.

Module RenderSample.

Fixpoint hasPrefix (pattern s : bytes) : bool :=
  match pattern, s with
  | [], _ => true
  | b :: pattern', c :: s' => Byte.eqb b c && hasPrefix pattern' s'
  | _ :: _, [] => false
  end.

(** First position at which [pattern] occurs in [s], with the position
    after it; [at_] is the position of the head of [s]. *)
Fixpoint findLiteral (pattern : bytes) (at_ : nat) (s : bytes)
  : option (nat * nat) :=
  if hasPrefix pattern s then Some (at_, at_ + length pattern)
  else
    match s with
    | [] => None
    | _ :: rest => findLiteral pattern (S at_) rest
    end.

(** A world in which no template exists on disk, the embedded template is
    a fixed text, rendering lists the names of the sections after it, and
    a regular expression is a literal text. *)
#[export] Instance render_world : RenderWorld :=
  {| fsFile := string;
     os_Open := fun _ => inl (mkError "no such file or directory");
     os_IsNotExist := fun e =>
       match e with
       | mkError msg => String.eqb msg "no such file or directory"
       end;
     templates_Open := fun name =>
       if String.eqb name "markdown-table" then inr "| property |"
       else inl (mkError "file does not exist");
     fs_ReadAll := fun f => (list_byte_of_string f, None);
     Template := string;
     template_Parse := fun _ text => inr text;
     template_Execute := fun t d =>
       (fold_left (fun acc s => acc +:+ " " +:+ sName s) (Sections d) t,
        None);
     io_ReadAll := fun f =>
       (drop (fOffset f) (fData f), None,
        {| fData := fData f;
           fOffset := Nat.max (fOffset f) (length (fData f)) |});
     Regexp := bytes;
     Regexp_FindIndex := fun pattern s => findLiteral pattern 0 s |}.

Definition readme : File :=
  {| fData := list_byte_of_string "intro <!-- AUTO --> old text <!-- END --> outro";
     fOffset := 0 |}.

Definition headerPattern : Regexp := list_byte_of_string "<!-- AUTO -->".

Definition footerPattern : Regexp := list_byte_of_string "<!-- END -->".

Definition oneSection : Document :=
  {| Sections := [{| sName := "Global"; sDescription := "";
                     sProperties := [] |}] |}.

End RenderSample.

(** * Properties *)

(** ** The path grammar *)

Lemma append_nil_l (s : string) : "" +:+ s = s.
Proof. reflexivity. Qed.

Lemma append_cons (c : ascii) (a b : string) :
  String c a +:+ b = String c (a +:+ b).
Proof. reflexivity. Qed.

Ltac str_simpl := rewrite ?append_cons, ?append_nil_l; simpl.

Lemma append_assoc (a b c : string) : (a +:+ b) +:+ c = a +:+ (b +:+ c).
Proof. induction a as [|x a IH]; str_simpl; [reflexivity | now f_equal]. Qed.

Lemma append_empty_r (a : string) : a +:+ "" = a.
Proof. induction a as [|x a IH]; str_simpl; [reflexivity | now f_equal]. Qed.

Lemma length_append (a b : string) :
  String.length (a +:+ b) = String.length a + String.length b.
Proof. induction a as [|x a IH]; str_simpl; [reflexivity | now f_equal]. Qed.

Lemma all_chars_append f (a b : string) :
  all_chars f (a +:+ b) = all_chars f a && all_chars f b.
Proof.
  induction a as [|x a IH]; str_simpl; [reflexivity |].
  rewrite IH. now destruct (f x).
Qed.

Lemma all_chars_weaken (f g : ascii -> bool) (s : string) :
  (forall c, f c = true -> g c = true) ->
  all_chars f s = true -> all_chars g s = true.
Proof.
  intros Hfg. induction s as [|c s IH]; simpl; [reflexivity |].
  intros [Hc Hs]%andb_prop. rewrite (Hfg _ Hc). now apply IH.
Qed.

Lemma span_spec f (s taken remaining : string) :
  span f s = (taken, remaining) ->
  s = taken +:+ remaining /\ all_chars f taken = true /\ stops f remaining.
Proof.
  revert taken remaining.
  induction s as [|c s IH]; simpl; intros taken remaining H.
  - inversion H; subst. simpl. auto.
  - destruct (f c) eqn:Hc.
    + destruct (span f s) as [t r] eqn:Hs. inversion H; subst.
      destruct (IH _ _ eq_refl) as (-> & Hall & Hstop).
      str_simpl. rewrite Hc. auto.
    + inversion H; subst. simpl. auto.
Qed.

Lemma span_append f (taken remaining : string) :
  all_chars f taken = true -> stops f remaining ->
  span f (taken +:+ remaining) = (taken, remaining).
Proof.
  induction taken as [|c t IH]; str_simpl; intros Hall Hstop.
  - destruct remaining as [|c r]; simpl in *; [reflexivity | now rewrite Hstop].
  - apply andb_prop in Hall as [Hc Ht]. rewrite Hc, (IH Ht Hstop). reflexivity.
Qed.

Lemma stops_prefix f (a b : string) : stops f (a +:+ b) -> stops f a.
Proof. destruct a; str_simpl; auto. Qed.

Lemma digit_is_name_char c : is_digit c = true -> is_name_char c = true.
Proof.
  unfold is_name_char. intros ->.
  now rewrite !orb_true_r.
Qed.

Lemma name_is_segment_char c : is_name_char c = true -> is_segment_char c = true.
Proof. unfold is_segment_char. now intros ->. Qed.

(** *** Decimal rendering of indices *)

Lemma string_of_uint_digits d : all_chars is_digit (NilEmpty.string_of_uint d) = true.
Proof. induction d; simpl; auto. Qed.

Lemma to_uint_nonnil n : Nat.to_uint n <> Decimal.Nil.
Proof.
  rewrite <- (DecimalNat.Unsigned.of_to n) at 1.
  rewrite DecimalNat.Unsigned.to_of.
  unfold Decimal.unorm. destruct (Decimal.nzhead _); discriminate.
Qed.

Lemma render_nat_digits n : all_chars is_digit (render_nat n) = true.
Proof. apply string_of_uint_digits. Qed.

Lemma render_nat_nonempty n : render_nat n <> "".
Proof.
  unfold render_nat. pose proof (to_uint_nonnil n) as H.
  destruct (Nat.to_uint n); simpl; congruence.
Qed.

Lemma digits_to_nat_render n : digits_to_nat (render_nat n) = n.
Proof.
  unfold digits_to_nat, render_nat.
  rewrite NilEmpty.usu. apply DecimalNat.Unsigned.of_to.
Qed.

(** *** Parsing a rendered component *)

Lemma name_char_not_bracket c :
  is_name_char c = true -> Ascii.eqb c "[" = false /\ Ascii.eqb c "." = false.
Proof.
  intros H. split.
  - destruct (Ascii.eqb_spec c "[") as [-> |]; [discriminate H | reflexivity].
  - destruct (Ascii.eqb_spec c ".") as [-> |]; [discriminate H | reflexivity].
Qed.

Lemma parse_segments_step fuel first acc c rest :
  parse_segments (S fuel) first acc (String c rest) =
  if Ascii.eqb c "[" then
    let '(ds, r) := span is_digit rest in
    match ds, r with
    | String _ _, String close r' =>
        if Ascii.eqb close "]" then
          parse_segments fuel false
            (acc ++ [indexPathComponent (digits_to_nat ds)]) r'
        else (acc, Some (SyntaxError (String c rest)))
    | _, _ => (acc, Some (SyntaxError (String c rest)))
    end
  else if Ascii.eqb c "." then
    let '(name, r) := span is_name_char rest in
    match name with
    | EmptyString => (acc, Some (SyntaxError (String c rest)))
    | _ => parse_segments fuel false (acc ++ [stringPathComponent name]) r
    end
  else if first && is_name_char c then
    let '(name, r) := span is_name_char (String c rest) in
    parse_segments fuel false (acc ++ [stringPathComponent name]) r
  else (acc, Some (SyntaxError (String c rest))).
Proof. reflexivity. Qed.

Lemma parse_component fuel first acc c tail :
  valid_component c = true ->
  (is_property c = true -> stops is_name_char tail) ->
  parse_segments (S fuel) first acc (render_component first c +:+ tail)
  = parse_segments fuel false (acc ++ [c]) tail.
Proof.
  intros Hvalid Htail. destruct c as [name | i]; simpl in Hvalid.
  - apply andb_prop in Hvalid as [Hne Hall].
    specialize (Htail eq_refl).
    destruct name as [|x name]; [discriminate Hne |].
    pose proof Hall as Hall'. simpl in Hall'.
    apply andb_prop in Hall' as [Hx _].
    destruct (name_char_not_bracket _ Hx) as [Hb Hd].
    destruct first; simpl render_component.
    + rewrite append_cons, parse_segments_step, Hb, Hd, Hx. simpl andb.
      rewrite <- append_cons, (span_append _ _ _ Hall Htail). reflexivity.
    + rewrite !append_cons, append_nil_l, parse_segments_step. simpl Ascii.eqb.
      rewrite <- append_cons, (span_append _ _ _ Hall Htail). reflexivity.
  - simpl render_component.
    rewrite !append_cons, append_nil_l, append_assoc, append_cons, append_nil_l.
    rewrite parse_segments_step. simpl Ascii.eqb.
    rewrite (span_append is_digit (render_nat i) (String "]" tail)
               (render_nat_digits i) eq_refl).
    pose proof (render_nat_nonempty i) as Hne.
    destruct (render_nat i) as [|d ds] eqn:Hr; [congruence |].
    rewrite <- Hr, digits_to_nat_render. reflexivity.
Qed.

Lemma render_from_false_stops p tail :
  p <> [] -> stops is_name_char (render_from false p +:+ tail).
Proof.
  destruct p as [|[name | i] rest]; [congruence | |]; intros _; simpl;
    reflexivity.
Qed.

(** Parsing the rendering of [p] followed by [tail] parses [p] and goes on
    with [tail], as long as a trailing property name cannot swallow the
    head of [tail]. *)
Lemma parse_rendered p : forall fuel first acc tail,
  valid_path p = true ->
  (ends_with_property p = true -> stops is_name_char tail) ->
  parse_segments (length p + fuel) first acc (render_from first p +:+ tail)
  = parse_segments fuel (first && bool_decide (p = [])) (acc ++ p) tail.
Proof.
  induction p as [|c rest IH]; intros fuel first acc tail Hvalid Htail.
  - simpl. rewrite append_nil_l, app_nil_r, andb_true_r. reflexivity.
  - simpl in Hvalid. apply andb_prop in Hvalid as [Hc Hrest].
    simpl render_from. rewrite append_assoc. simpl length. simpl plus.
    rewrite parse_component; [| exact Hc |].
    + rewrite IH; [| exact Hrest |].
      * rewrite andb_false_r. simpl. now rewrite <- app_assoc.
      * intros Hend. apply Htail. unfold ends_with_property in *.
        destruct rest; [discriminate Hend | exact Hend].
    + intros Hprop. destruct rest as [|c' rest'].
      * simpl. rewrite append_nil_l. apply Htail.
        unfold ends_with_property. simpl. now destruct c.
      * now apply render_from_false_stops.
Qed.


Lemma parse_segments_empty fuel first acc :
  parse_segments fuel first acc "" = (acc, None).
Proof. destruct fuel; reflexivity. Qed.

Lemma segment_chars_name name consumed :
  all_chars is_name_char name = true ->
  all_chars is_segment_char consumed = true ->
  all_chars is_segment_char (name +:+ consumed) = true.
Proof.
  intros Hname Hall. rewrite all_chars_append, Hall.
  now rewrite (all_chars_weaken _ _ _ name_is_segment_char Hname).
Qed.

Lemma segment_chars_index ds consumed :
  all_chars is_digit ds = true ->
  all_chars is_segment_char consumed = true ->
  all_chars is_segment_char (String "[" (ds +:+ String "]" consumed)) = true.
Proof.
  intros Hds Hall.
  change (all_chars is_segment_char (ds +:+ String "]" consumed) = true).
  apply segment_chars_name.
  - eapply all_chars_weaken; [apply digit_is_name_char | exact Hds].
  - exact Hall.
Qed.

Lemma ends_with_property_cons c p :
  p <> [] -> ends_with_property (c :: p) = ends_with_property p.
Proof.
  unfold ends_with_property. destruct p as [|c' p']; [congruence |].
  intros _. now rewrite last_cons_cons.
Qed.

(** Every run of the parser splits its input into a consumed prefix and a
    remainder: the components returned are the parse of the prefix alone,
    which succeeds, and there is an error exactly when the remainder is not
    empty; no segment starts at the head of a remainder that is not empty,
    nor does that head continue a property name. *)
Lemma parse_split fuel : forall first acc s,
  String.length s <= fuel ->
  exists consumed rest p,
    s = consumed +:+ rest /\
    all_chars is_segment_char consumed = true /\
    parse_segments fuel first acc s = (acc ++ p, error_at rest) /\
    (forall fuel', String.length consumed <= fuel' ->
       parse_segments fuel' first acc consumed = (acc ++ p, None)) /\
    (rest <> "" ->
     starts_segment (first && bool_decide (p = [])) rest = false) /\
    (ends_with_property p = true -> stops is_name_char rest) /\
    (p = [] -> consumed = "").
Proof.
  assert (Hnone : forall first acc s,
    s <> "" -> starts_segment first s = false ->
    exists consumed rest p,
      s = consumed +:+ rest /\
      all_chars is_segment_char consumed = true /\
      (acc, Some (SyntaxError s)) = (acc ++ p, error_at rest) /\
      (forall fuel', String.length consumed <= fuel' ->
         parse_segments fuel' first acc consumed = (acc ++ p, None)) /\
      (rest <> "" ->
       starts_segment (first && bool_decide (p = [])) rest = false) /\
      (ends_with_property p = true -> stops is_name_char rest) /\
      (p = [] -> consumed = "")).
  { intros first acc s Hs Hstart. exists "", s, []. rewrite app_nil_r.
    split; [reflexivity |]. split; [reflexivity |].
    split; [destruct s; [congruence | reflexivity] |].
    split; [intros; apply parse_segments_empty |].
    split; [now rewrite andb_true_r |].
    split; [discriminate | reflexivity]. }
  assert (Hdone : forall first acc,
    exists consumed rest p,
      "" = consumed +:+ rest /\
      all_chars is_segment_char consumed = true /\
      (acc, @None PathError) = (acc ++ p, error_at rest) /\
      (forall fuel', String.length consumed <= fuel' ->
         parse_segments fuel' first acc consumed = (acc ++ p, None)) /\
      (rest <> "" ->
       starts_segment (first && bool_decide (p = [])) rest = false) /\
      (ends_with_property p = true -> stops is_name_char rest) /\
      (p = [] -> consumed = "")).
  { intros first acc. exists "", "", []. rewrite app_nil_r.
    split; [reflexivity |]. split; [reflexivity |]. split; [reflexivity |].
    split; [intros; apply parse_segments_empty |].
    split; [congruence |]. split; [discriminate | reflexivity]. }
  induction fuel as [|fuel IH]; intros first acc s Hlen.
  - destruct s; [| simpl in Hlen; lia]. apply Hdone.
  - destruct s as [|c s']; [apply Hdone |].
    simpl in Hlen. rewrite parse_segments_step.
    pose proof (Hnone first acc (String c s') ltac:(discriminate)) as Hstay.
    unfold starts_segment in Hstay.
    destruct (Ascii.eqb c "[") eqn:Hopen.
    { apply Ascii.eqb_eq in Hopen as ->.
      destruct (span is_digit s') as [ds r] eqn:Hspan.
      apply span_spec in Hspan as (-> & Hds & Hstop).
      rewrite length_append in Hlen.
      destruct ds as [|d ds']; [now apply Hstay |].
      destruct r as [|close r']; [now apply Hstay |].
      destruct (Ascii.eqb close "]") eqn:Hclose; [| now apply Hstay].
      clear Hstay.
      apply Ascii.eqb_eq in Hclose as ->. simpl in Hlen.
      destruct (IH false
                  (acc ++ [indexPathComponent (digits_to_nat (String d ds'))])
                  r' ltac:(lia))
        as (consumed & rest & p & -> & Hall & Hparse & Hprefix & Hrest
            & Hname & Hempty).
      exists (String "[" (String d ds' +:+ String "]" consumed)), rest,
        (indexPathComponent (digits_to_nat (String d ds')) :: p).
      rewrite Hparse, <- !app_assoc. simpl app.
      split; [now rewrite !append_cons, append_assoc, !append_cons |].
      split; [now apply segment_chars_index |].
      split; [reflexivity |].
      split; [| split; [| split]].
      - intros [|fuel'] Hfuel; [simpl in Hfuel; lia |].
        rewrite parse_segments_step. simpl Ascii.eqb at 1.
        rewrite (span_append is_digit (String d ds') (String "]" consumed) Hds
                   eq_refl).
        simpl Ascii.eqb. rewrite Hprefix, <- app_assoc; [reflexivity |].
        simpl in Hfuel. rewrite length_append in Hfuel. simpl in Hfuel. lia.
      - intros Hne. rewrite andb_false_r. now apply Hrest.
      - intros Hend. apply Hname. destruct p as [|c1 p1];
          [discriminate Hend |].
        now rewrite ends_with_property_cons in Hend.
      - discriminate. }
    destruct (Ascii.eqb c ".") eqn:Hdot.
    { apply Ascii.eqb_eq in Hdot as ->.
      destruct (span is_name_char s') as [name r] eqn:Hspan.
      apply span_spec in Hspan as (-> & Hname & Hstop).
      rewrite length_append in Hlen.
      destruct name as [|x name'].
      { apply Hstay. rewrite append_nil_l in *.
        destruct r; [reflexivity | exact Hstop]. }
      clear Hstay.
      destruct (IH false (acc ++ [stringPathComponent (String x name')]) r
                  ltac:(lia))
        as (consumed & rest & p & -> & Hall & Hparse & Hprefix & Hrest
            & Hlast & Hempty).
      exists (String "." (String x name' +:+ consumed)), rest,
        (stringPathComponent (String x name') :: p).
      rewrite Hparse, <- !app_assoc. simpl app.
      split; [now rewrite !append_cons, append_assoc |].
      split; [now apply (segment_chars_name (String x name')) |].
      split; [reflexivity |].
      split; [| split; [| split]].
      - intros [|fuel'] Hfuel; [simpl in Hfuel; lia |].
        rewrite parse_segments_step. simpl Ascii.eqb.
        rewrite (span_append is_name_char (String x name') consumed Hname
                   (stops_prefix _ _ _ Hstop)).
        rewrite Hprefix, <- app_assoc; [reflexivity |].
        simpl in Hfuel. rewrite length_append in Hfuel. simpl in Hfuel. lia.
      - intros Hne. rewrite andb_false_r. now apply Hrest.
      - intros Hend. destruct p as [|c1 p1].
        + rewrite (Hempty eq_refl), append_nil_l in Hstop. exact Hstop.
        + apply Hlast. now rewrite ends_with_property_cons in Hend.
      - discriminate. }
    destruct (first && is_name_char c) eqn:Hstart;
      [| now apply Hstay].
    clear Hstay.
    apply andb_prop in Hstart as [-> Hc].
    destruct (span is_name_char (String c s')) as [name r] eqn:Hspan.
    apply span_spec in Hspan as (Heq & Hname & Hstop).
    destruct name as [|x name'].
    { rewrite append_nil_l in Heq. subst r. simpl in Hstop. congruence. }
    rewrite append_cons in Heq. injection Heq as <- ->.
    rewrite length_append in Hlen.
    destruct (IH false (acc ++ [stringPathComponent (String c name')]) r
                ltac:(lia))
      as (consumed & rest & p & -> & Hall & Hparse & Hprefix & Hrest
          & Hlast & Hempty).
    exists (String c name' +:+ consumed), rest,
      (stringPathComponent (String c name') :: p).
    rewrite Hparse, <- !app_assoc. simpl app.
    split; [now rewrite !append_cons, append_assoc |].
    split; [now apply segment_chars_name |].
    split; [reflexivity |].
    split; [| split; [| split]].
    + intros [|fuel'] Hfuel;
        [rewrite append_cons in Hfuel; simpl in Hfuel; lia |].
      rewrite append_cons, parse_segments_step, Hopen, Hdot, Hc. simpl andb.
      rewrite <- append_cons.
      rewrite (span_append is_name_char (String c name') consumed Hname
                 (stops_prefix _ _ _ Hstop)).
      rewrite Hprefix, <- app_assoc; [reflexivity |].
      rewrite length_append in Hfuel. simpl in Hfuel. lia.
    + intros Hne. now apply Hrest.
    + intros Hend. destruct p as [|c1 p1].
      * rewrite (Hempty eq_refl), append_nil_l in Hstop. exact Hstop.
      * apply Hlast. now rewrite ends_with_property_cons in Hend.
    + discriminate.
Qed.

Lemma render_length p : forall first,
  valid_path p = true -> length p <= String.length (render_from first p).
Proof.
  induction p as [|c rest IH]; intros first Hvalid; simpl; [lia |].
  simpl in Hvalid. apply andb_prop in Hvalid as [Hc Hrest].
  rewrite length_append. specialize (IH false Hrest).
  assert (1 <= String.length (render_component first c)); [| lia].
  destruct c as [name | i]; simpl in *.
  - destruct name as [|x name]; [discriminate Hc |].
    destruct first; simpl; lia.
  - lia.
Qed.

(** The table of [TestParsePath] (path_test.go). *)
Lemma ParsePath_test_table :
  ParsePath "" = ([], None)
  /\ ParsePath "foo" = ([stringPathComponent "foo"], None)
  /\ ParsePath "foo[0]"
     = ([stringPathComponent "foo"; indexPathComponent 0], None)
  /\ ParsePath "foo.bar[0].baz"
     = ([stringPathComponent "foo"; stringPathComponent "bar";
         indexPathComponent 0; stringPathComponent "baz"], None)
  /\ fst (ParsePath "foo[0]aa")
     = [stringPathComponent "foo"; indexPathComponent 0]
  /\ snd (ParsePath "foo[0]aa") <> None.
Proof. repeat split; try reflexivity. discriminate. Qed.

(** C9. Parsing the canonical rendering of a path whose property names
    are non-empty and drawn from the property-segment character class gives
    the path back, with no error; the empty string parses to the empty path
    with no error. *)
Theorem ParsePath_roundtrip :
  (forall p : Path,
     valid_path p = true -> ParsePath (Path_String p) = (p, None))
  /\ ParsePath "" = ([], None).
Proof.
  split; [| reflexivity].
  intros p Hvalid. unfold ParsePath, Path_String.
  pose proof (render_length p true Hvalid) as Hlen.
  replace (String.length (render_from true p))
    with (length p + (String.length (render_from true p) - length p)) by lia.
  rewrite <- (append_empty_r (render_from true p)) at 2.
  rewrite parse_rendered; [| exact Hvalid | intros _; exact I].
  apply parse_segments_empty.
Qed.

Lemma ParsePath_roundtrip_witness :
  valid_path [stringPathComponent "foo"; stringPathComponent "bar";
              indexPathComponent 10; stringPathComponent "b-z_9"] = true
  /\ ParsePath "foo.bar[10].b-z_9"
     = ([stringPathComponent "foo"; stringPathComponent "bar";
         indexPathComponent 10; stringPathComponent "b-z_9"], None).
Proof.
  split; [reflexivity |].
  apply (proj1 ParsePath_roundtrip
           [stringPathComponent "foo"; stringPathComponent "bar";
            indexPathComponent 10; stringPathComponent "b-z_9"]).
  reflexivity.
Defined.

(** *** Where the parse stops *)

Lemma no_segment_error fuel first acc tail :
  tail <> "" -> starts_segment first tail = false ->
  parse_segments fuel first acc tail = (acc, Some (SyntaxError tail)).
Proof.
  destruct tail as [|c rest]; [congruence |]. intros _ Hnone.
  destruct fuel as [|fuel]; [reflexivity |].
  rewrite parse_segments_step. simpl in Hnone.
  destruct (Ascii.eqb c "[").
  { destruct (span is_digit rest) as [[|d ds] [|close r]]; try reflexivity.
    now rewrite Hnone. }
  destruct (Ascii.eqb c ".").
  { destruct (span is_name_char rest) as [[|x name] r] eqn:Hspan;
      [reflexivity |].
    apply span_spec in Hspan as (-> & Hname & _).
    rewrite append_cons in Hnone. simpl in Hname.
    rewrite Hnone in Hname. discriminate Hname. }
  now rewrite Hnone.
Qed.

(** A prefix that parses without error, followed by a tail at whose head
    no rule matches: the components are those of the prefix and the error
    carries the tail. *)
Lemma parse_prefix_error fuel : forall first acc consumed p tail fuel',
  String.length consumed <= fuel ->
  parse_segments fuel first acc consumed = (acc ++ p, None) ->
  tail <> "" ->
  starts_segment (first && bool_decide (p = [])) tail = false ->
  (ends_with_property p = true -> stops is_name_char tail) ->
  String.length consumed <= fuel' ->
  parse_segments fuel' first acc (consumed +:+ tail)
  = (acc ++ p, Some (SyntaxError tail)).
Proof.
  induction fuel as [|fuel IH];
    intros first acc consumed p tail fuel' Hlen Hparse Htail Hnone Hstop Hfuel.
  - destruct consumed; [| simpl in Hlen; lia].
    simpl in Hparse. injection Hparse as Hp.
    rewrite <- (app_nil_r acc) in Hp at 1. apply app_inv_head in Hp as <-.
    rewrite append_nil_l, app_nil_r. rewrite andb_true_r in Hnone.
    now apply no_segment_error.
  - destruct consumed as [|c s'].
    { simpl in Hparse. injection Hparse as Hp.
      rewrite <- (app_nil_r acc) in Hp at 1. apply app_inv_head in Hp as <-.
      rewrite append_nil_l, app_nil_r. rewrite andb_true_r in Hnone.
      now apply no_segment_error. }
    simpl in Hlen. destruct fuel' as [|fuel']; [simpl in Hfuel; lia |].
    simpl in Hfuel.
    rewrite parse_segments_step in Hparse.
    rewrite append_cons, parse_segments_step.
    assert (Hrec : forall c0 r,
      String.length r <= fuel -> String.length r <= fuel' ->
      parse_segments fuel false (acc ++ [c0]) r = (acc ++ p, None) ->
      parse_segments fuel' false (acc ++ [c0]) (r +:+ tail)
      = (acc ++ p, Some (SyntaxError tail))
      /\ (is_property c0 = true -> r = "" -> stops is_name_char tail)).
    { intros c0 r Hr Hr' Hp.
      destruct (parse_split fuel false (acc ++ [c0]) r Hr)
        as (consumed' & rest' & p' & _ & _ & Hsplit & _).
      rewrite Hp in Hsplit. injection Hsplit as Hq _.
      rewrite <- app_assoc in Hq. apply app_inv_head in Hq. simpl in Hq.
      subst p.
      replace (acc ++ c0 :: p') with ((acc ++ [c0]) ++ p') in *
        by now rewrite <- app_assoc.
      split.
      - apply (IH false (acc ++ [c0]) r p' tail fuel' Hr Hp Htail);
          [| | exact Hr'].
        + rewrite andb_false_r in Hnone. exact Hnone.
        + intros Hend. apply Hstop. destruct p' as [|c1 p1];
            [discriminate Hend |].
          now rewrite ends_with_property_cons.
      - intros Hprop ->. apply Hstop.
        rewrite parse_segments_empty in Hp. injection Hp as Hq.
        rewrite <- (app_nil_r (acc ++ [c0])) in Hq at 1.
        apply app_inv_head in Hq as <-.
        unfold ends_with_property. simpl. now destruct c0. }
    destruct (Ascii.eqb c "[") eqn:Hopen.
    { destruct (span is_digit s') as [ds r] eqn:Hspan.
      apply span_spec in Hspan as (-> & Hds & _).
      rewrite length_append in Hlen, Hfuel.
      destruct ds as [|d ds']; [discriminate Hparse |].
      destruct r as [|close r']; [discriminate Hparse |].
      destruct (Ascii.eqb close "]") eqn:Hclose; [| discriminate Hparse].
      apply Ascii.eqb_eq in Hclose as ->. simpl in Hlen, Hfuel.
      replace ((String d ds' +:+ String "]" r') +:+ tail)
        with (String d ds' +:+ String "]" (r' +:+ tail))
        by now rewrite append_assoc, (append_cons "]"%char).
      rewrite (span_append is_digit (String d ds') (String "]" (r' +:+ tail))
                 Hds eq_refl).
      simpl Ascii.eqb.
      apply (Hrec _ r'); [lia | lia | exact Hparse]. }
    destruct (Ascii.eqb c ".") eqn:Hdot.
    { destruct (span is_name_char s') as [name r] eqn:Hspan.
      apply span_spec in Hspan as (-> & Hname & Hr).
      rewrite length_append in Hlen, Hfuel.
      destruct name as [|x name']; [discriminate Hparse |].
      simpl in Hlen, Hfuel.
      destruct (Hrec (stringPathComponent (String x name')) r
                  ltac:(lia) ltac:(lia) Hparse) as [Hgoal Hlast].
      rewrite append_assoc.
      rewrite (span_append is_name_char (String x name') (r +:+ tail) Hname).
      - exact Hgoal.
      - destruct r as [|y r']; [| exact Hr].
        rewrite append_nil_l. now apply Hlast. }
    destruct (first && is_name_char c) eqn:Hstart; [| discriminate Hparse].
    destruct (span is_name_char (String c s')) as [name r] eqn:Hspan.
    apply span_spec in Hspan as (Heq & Hname & Hr).
    assert (Hlen' : String.length r < String.length (String c s')).
    { apply andb_prop in Hstart as [_ Hc].
      destruct name as [|x name'].
      - rewrite append_nil_l in Heq. subst r. simpl in Hr. congruence.
      - rewrite Heq, append_cons. simpl. rewrite length_append. lia. }
    simpl in Hlen'.
    destruct (Hrec (stringPathComponent name) r
                ltac:(lia) ltac:(lia) Hparse) as [Hgoal Hlast].
    rewrite <- append_cons, Heq, append_assoc.
    rewrite (span_append is_name_char name (r +:+ tail) Hname).
    + exact Hgoal.
    + destruct r as [|y r']; [| exact Hr].
      rewrite append_nil_l. now apply Hlast.
Qed.

Lemma unmatched_char p c rest :
  is_segment_char c = false -> unmatched_at p (String c rest).
Proof.
  unfold is_segment_char. intros Hc.
  apply orb_false_elim in Hc as [Hc Hclose].
  apply orb_false_elim in Hc as [Hc Hopen].
  apply orb_false_elim in Hc as [Hname Hdot].
  split; [discriminate |]. split.
  - simpl. rewrite Hopen, Hdot, Hname. apply andb_false_r.
  - intros _. exact Hname.
Qed.

(** C8. Where the scan of a path string reaches a point at which no rule
    of the grammar matches, [ParsePath] fails with a syntax error that
    carries the unread remainder, and the components it returns with the
    error are exactly the parse of the part read before that point; every
    failing parse is of this form, and a string holding a character that
    belongs to neither rule always fails.  In particular a character of
    neither rule after a prefix that parses gives the components of the
    prefix, and [foo[0]aa] gives an error together with the components
    [foo] and [0]. *)
Theorem ParsePath_syntax_error :
  (forall (consumed tail : string) (p : Path),
     ParsePath consumed = (p, None) ->
     unmatched_at p tail ->
     ParsePath (consumed +:+ tail) = (p, Some (SyntaxError tail)))
  /\ (forall (s : string) (p : Path) (e : PathError),
        ParsePath s = (p, Some e) ->
        exists consumed tail,
          s = consumed +:+ tail /\ e = SyntaxError tail
          /\ ParsePath consumed = (p, None) /\ unmatched_at p tail)
  /\ (forall s : string,
        contains_unmatched s = true ->
        exists p e, ParsePath s = (p, Some e))
  /\ (forall (consumed rest : string) (c : ascii) (p : Path),
        ParsePath consumed = (p, None) ->
        is_segment_char c = false ->
        ParsePath (consumed +:+ String c rest)
        = (p, Some (SyntaxError (String c rest))))
  /\ ParsePath "foo[0]aa"
     = ([stringPathComponent "foo"; indexPathComponent 0],
        Some (SyntaxError "aa")).
Proof.
  assert (Hgeneral : forall consumed tail p,
    ParsePath consumed = (p, None) -> unmatched_at p tail ->
    ParsePath (consumed +:+ tail) = (p, Some (SyntaxError tail))).
  { intros consumed tail p Hparse (Htail & Hnone & Hstop). unfold ParsePath.
    apply (parse_prefix_error (String.length consumed) true [] consumed p tail
             _ (le_n _) Hparse Htail Hnone Hstop).
    rewrite length_append. lia. }
  split; [exact Hgeneral |].
  split; [| split; [| split]].
  - intros s p e Hparse. unfold ParsePath in Hparse.
    destruct (parse_split (String.length s) true [] s (le_n _))
      as (consumed & rest & p' & Hs & _ & Hsplit & Hprefix & Hrest & Hname
          & _).
    rewrite Hparse in Hsplit. simpl in Hsplit. injection Hsplit as <- Herr.
    assert (rest <> "") as Hne by (intros ->; discriminate Herr).
    exists consumed, rest. split; [exact Hs |].
    split; [destruct rest; [congruence | now inversion Herr] |].
    split; [apply Hprefix, le_n |].
    split; [exact Hne |]. split; [now apply Hrest | exact Hname].
  - intros s Hbad. unfold ParsePath.
    destruct (parse_split (String.length s) true [] s (le_n _))
      as (consumed & rest & p & Hs & Hall & Hparse & _).
    exists p, (SyntaxError rest). rewrite Hparse.
    destruct rest; [| reflexivity].
    rewrite append_empty_r in Hs. subst consumed.
    unfold contains_unmatched in Hbad. rewrite Hall in Hbad. discriminate.
  - intros consumed rest c p Hparse Hc.
    apply Hgeneral; [exact Hparse | now apply unmatched_char].
  - apply (Hgeneral "foo[0]" "aa"); [reflexivity |].
    split; [discriminate |]. split; [reflexivity | discriminate].
Qed.

Lemma ParsePath_syntax_error_witness :
  ParsePath "foo[0]"
  = ([stringPathComponent "foo"; indexPathComponent 0], None)
  /\ unmatched_at [stringPathComponent "foo"; indexPathComponent 0] "aa"
  /\ ParsePath ("foo[0]" +:+ "aa")
     = ([stringPathComponent "foo"; indexPathComponent 0],
        Some (SyntaxError "aa")).
Proof.
  assert (unmatched_at [stringPathComponent "foo"; indexPathComponent 0] "aa")
    as Htail.
  { split; [discriminate |]. split; [reflexivity | discriminate]. }
  split; [reflexivity |]. split; [exact Htail |].
  exact (proj1 ParsePath_syntax_error "foo[0]" "aa"
           [stringPathComponent "foo"; indexPathComponent 0] eq_refl Htail).
Defined.

(** ** The walker *)

(** *** The effect monad *)

Lemma bind_done {A B} (m : M A) (k : A -> M B) st r :
  bind m k st = Done r ->
  exists a st1, m st = Done (a, st1) /\ k a st1 = Done r.
Proof.
  unfold bind. destruct (m st) as [[a st1] | |]; [eauto | discriminate..].
Qed.

Lemma bind_step {A B} (m : M A) (k : A -> M B) st a st1 :
  m st = Done (a, st1) -> bind m k st = k a st1.
Proof. unfold bind. now intros ->. Qed.

Lemma lift_done {A} (r : result A) st a st' :
  lift r st = Done (a, st') -> r = Done a /\ st' = st.
Proof. unfold lift. destruct r; intros H; inversion H; auto. Qed.

Tactic Notation "inv_bind" hyp(H) "as" ident(a) ident(st1) ident(H1) :=
  apply bind_done in H as (a & st1 & H1 & H).

Section WalkerFacts.

Context {W : World}.

(** *** The loops of [walk] *)

Lemma walkSequence_nodes rec root raw content : forall i st,
  walkSequence rec root raw i content st
  = walkNodes rec (imap (fun j => sequenceChild root raw (i + j)) content) st.
Proof.
  induction content as [|node rest IH]; intros i st; [reflexivity |].
  simpl. rewrite Nat.add_0_r. unfold bind, sequenceChild at 1.
  destruct (rec _ st) as [[[e |] st1] | |]; try reflexivity.
  rewrite IH. f_equal. apply imap_ext. intros j x _. simpl.
  now rewrite Nat.add_succ_r.
Qed.

Lemma walkDocument_nodes rec root content : forall st,
  walkDocument rec root content st
  = walkNodes rec (map (documentChild root) content) st.
Proof.
  induction content as [|node rest IH]; intros st; [reflexivity |].
  simpl. unfold bind, documentChild at 1.
  destruct (rec _ st) as [[[e |] st1] | |]; try reflexivity.
  apply IH.
Qed.

Lemma walkMapping_nodes rec root : forall bound content st,
  length content <= bound ->
  walkMapping rec root content st
  = (let* err := walkNodes rec (mappingChildren root content) in
     match err with
     | Some e => ret (Some e)
     | None =>
         if Nat.odd (length content) then panic "index out of range"
         else ret None
     end) st.
Proof.
  induction bound as [|bound IH]; intros content st Hlen.
  - destruct content; [reflexivity | simpl in Hlen; lia].
  - destruct content as [|keyNode [|valueNode rest]]; [reflexivity.. |].
    simpl in Hlen. simpl walkMapping. simpl mappingChildren. simpl walkNodes.
    unfold bind, mappingChild.
    destruct (rec _ st) as [[[e |] st1] | |]; try reflexivity.
    rewrite IH by lia. reflexivity.
Qed.

Lemma walk_unfold fuel fn root st st1 p :
  fn root st = Done ((false, None), st1) ->
  nRawNode root = Some p ->
  walk (S fuel) fn root st
  = (let* err := walkNodes (walk fuel fn) (childNodes root (mem p)) in
     finish (mem p) err) st1.
Proof.
  intros Hfn Hraw. simpl walk. rewrite (bind_step _ _ _ _ _ Hfn), Hraw.
  unfold childNodes, finish.
  destruct (Kind (mem p)) eqn:Hkind.
  - reflexivity.
  - rewrite walkDocument_nodes. unfold bind.
    destruct (walkNodes _ _ st1) as [[[e |] st2] | |]; reflexivity.
  - rewrite walkSequence_nodes. unfold sequenceChildren, bind. simpl.
    destruct (walkNodes _ _ st1) as [[[e |] st2] | |]; reflexivity.
  - rewrite (walkMapping_nodes _ _ _ _ _ (le_n _)). reflexivity.
  - reflexivity.
  - simpl walkNodes. unfold aliasChild, bind.
    destruct (walk fuel fn _ st1) as [[[e |] st2] | |]; reflexivity.
Qed.

Lemma walk_stop fuel fn root st st1 err stop :
  fn root st = Done ((stop, err), st1) ->
  stop = true \/ err <> None ->
  walk (S fuel) fn root st = Done (err, st1).
Proof.
  intros Hfn Hstop. simpl walk. rewrite (bind_step _ _ _ _ _ Hfn).
  destruct err as [e |]; [reflexivity |].
  destruct Hstop as [-> | Hne]; [reflexivity | congruence].
Qed.

(** *** Invariants of the assembly *)

Lemma unit_eta (u : unit) : u = tt.
Proof. now destruct u. Qed.

Lemma parseComment_inv A I path c st u st' :
  stable A I -> A \/ no_section c -> I st ->
  parseCommentOntoDocument path c st = Done (u, st') -> I st'.
Proof.
  intros HI HA Hst. unfold parseCommentOntoDocument.
  rewrite (unit_eta u).
  destruct (Tags_GetBool (cTags c) TagSection) eqn:Hsec.
  { destruct HA as [HA | Hno]; [| unfold no_section in Hno; congruence].
    now apply (stable_open _ _ HI). }
  destruct (Tags_GetBool (cTags c) TagProperty).
  2: { intros H; inversion H; now subst. }
  intros H. inv_bind H as inferred st0 Hinfer.
  destruct inferred as [parsedNode comment]. simpl in H.
  apply lift_done in Hinfer as [Hinfer ->].
  destruct (String.eqb (Tags_GetString (cTags comment) TagProperty) "").
  - destruct (String.eqb (Path_String (nPath parsedNode)) "").
    + eapply (stable_log _ _ HI); eauto.
    + eapply (stable_append _ _ HI); eauto.
  - eapply (stable_append _ _ HI); eauto.
Qed.

Lemma parseComments_inv A I path cs : forall st u st',
  stable A I -> A \/ Forall no_section cs -> I st ->
  parseCommentsOntoDocument path cs st = Done (u, st') -> I st'.
Proof.
  induction cs as [|c rest IH]; intros st u st' HI HA Hst H.
  - inversion H; now subst.
  - simpl in H. inv_bind H as u0 st0 Hfirst.
    apply (IH st0 u st' HI); [| | exact H].
    + destruct HA as [HA | Hall]; [now left | right; now inversion Hall].
    + eapply parseComment_inv; eauto.
      destruct HA as [HA | Hall]; [now left | right; now inversion Hall].
Qed.

Lemma no_section_zero : no_section zeroComment.
Proof. reflexivity. Qed.

Lemma pop_no_section cs comment b remaining :
  Comments_Pop cs = (comment, b, remaining) ->
  Forall no_section cs ->
  no_section comment /\ Forall no_section remaining.
Proof.
  destruct cs as [|c rest]; simpl; intros H Hall; inversion H; subst.
  - split; [apply no_section_zero | constructor].
  - now inversion Hall.
Qed.

Lemma visitBody_result node comment st r st' :
  visitBody node comment st = Done (r, st') ->
  snd r = None /\
  (if Tags_GetBool (cTags comment) TagIgnore then fst r = true
   else isEndNode node comment = Done (fst r)).
Proof.
  unfold visitBody.
  destruct (Tags_GetBool (cTags comment) TagIgnore).
  { intros H; inversion H; subst; auto. }
  intros H. inv_bind H as isEnd st0 Hend. apply lift_done in Hend as [Hend ->].
  destruct isEnd; cbn [negb] in H.
  - inv_bind H as def st1 Hdef. inv_bind H as u st2 Happ.
    inversion H; subst. auto.
  - inv_bind H as u st1 Hfwd. inversion H; subst. auto.
Qed.

Lemma visitBody_inv A I node comment st r st' :
  stable A I -> A \/ no_section comment -> I st ->
  visitBody node comment st = Done (r, st') -> I st'.
Proof.
  intros HI HA Hst. unfold visitBody.
  destruct (Tags_GetBool (cTags comment) TagIgnore).
  { intros H; inversion H; now subst. }
  intros H. inv_bind H as isEnd st0 Hend. apply lift_done in Hend as [Hend ->].
  destruct isEnd; cbn [negb] in H.
  - inv_bind H as def st1 Hdef. apply lift_done in Hdef as [Hdef ->].
    inv_bind H as u st2 Happ. inversion H; subst. destruct u.
    eapply (stable_append _ _ HI); eauto.
  - inv_bind H as u st1 Hfwd. inversion H; subst.
    eapply (parseComments_inv A I _ [comment]);
      [exact HI | | exact Hst | exact Hfwd].
    destruct HA; [now left | right; now repeat constructor].
Qed.

(** What a call of the callback amounts to, step by step. *)
Lemma visit_done node st r st' :
  visit node st = Done (r, st') ->
  exists comment b remaining u1 st1 st2 u2,
    Comments_Pop (nHeadComments node) = (comment, b, remaining) /\
    parseCommentsOntoDocument (Path_Parent (nPath node)) remaining st
    = Done (u1, st1) /\
    visitBody node comment st1 = Done (r, st2) /\
    parseCommentsOntoDocument (Path_Parent (nPath node)) (nFootComment node)
      st2 = Done (u2, st').
Proof.
  unfold visit.
  destruct (Comments_Pop (nHeadComments node)) as [[comment b] remaining].
  intros H. inv_bind H as u1 st1 Hhead. inv_bind H as r1 st2 Hbody.
  inv_bind H as u2 st3 Hfoot. inversion H; subst.
  exists comment, b, remaining, u1, st1, st2, u2. auto.
Qed.

Lemma visit_no_error node st stop err st' :
  visit node st = Done ((stop, err), st') -> err = None.
Proof.
  intros H. apply visit_done in H
    as (comment & b & remaining & u1 & st1 & st2 & u2 & _ & _ & Hbody & _).
  now apply visitBody_result in Hbody as [Herr _].
Qed.

Lemma visit_inv A I node st r st' :
  stable A I -> admissible A node -> I st ->
  visit node st = Done (r, st') -> I st'.
Proof.
  intros HI Hadm Hst H. apply visit_done in H
    as (comment & b & remaining & u1 & st1 & st2 & u2
        & Hpop & Hhead & Hbody & Hfoot).
  assert (A \/ (no_section comment /\ Forall no_section remaining
               /\ Forall no_section (nFootComment node))) as Hq.
  { destruct Hadm as [HA | [Hh Hf]]; [now left | right].
    destruct (pop_no_section _ _ _ _ Hpop Hh). auto. }
  eapply parseComments_inv; [exact HI | | | exact Hfoot].
  { destruct Hq as [HA | (_ & _ & Hf)]; auto. }
  eapply visitBody_inv; [exact HI | | | exact Hbody].
  { destruct Hq as [HA | (Hc & _ & _)]; auto. }
  eapply parseComments_inv; [exact HI | | exact Hst | exact Hhead].
  destruct Hq as [HA | (_ & Hr & _)]; auto.
Qed.

Lemma walkNodes_inv (I : Assembly -> Prop) rec nodes : forall st r st',
  (forall n st r st', In n nodes -> I st -> rec n st = Done (r, st') -> I st') ->
  I st -> walkNodes rec nodes st = Done (r, st') -> I st'.
Proof.
  induction nodes as [|n rest IH]; intros st r st' Hrec Hst H.
  - inversion H; now subst.
  - simpl in H. inv_bind H as err st0 Hn.
    assert (I st0) as Hst0 by (eapply Hrec; eauto; now left).
    destruct err as [e |]; [inversion H; now subst |].
    eapply IH; eauto. intros; eapply Hrec; eauto. now right.
Qed.

Lemma finish_done raw err st r st' :
  finish raw err st = Done (r, st') -> r = err /\ st' = st.
Proof.
  unfold finish. destruct err as [e |].
  - intros H; inversion H; auto.
  - destruct (Kind raw); try (intros H; inversion H; auto).
    destruct (Nat.odd _); [discriminate |]. inversion H; auto.
Qed.

Lemma In_imap {A B} (f : nat -> A -> B) (l : list A) : forall (g : nat -> A -> B) y,
  In y (imap g l) -> exists i x, In x l /\ y = g i x.
Proof.
  induction l as [|x rest IH]; intros g y; simpl; [tauto |].
  intros [<- | Hin]; [exists 0, x; auto |].
  destruct (IH _ _ Hin) as (i & x' & Hx & ->).
  exists (S i), x'. auto.
Qed.

Lemma In_mappingChildren root n' : forall bound content,
  length content <= bound ->
  In n' (mappingChildren root content) ->
  exists keyNode valueNode,
    In keyNode content /\ In valueNode content
    /\ n' = mappingChild root keyNode valueNode.
Proof.
  induction bound as [|bound IH]; intros content Hlen.
  - destruct content; [simpl; tauto | simpl in Hlen; lia].
  - destruct content as [|k [|v rest]]; simpl; [tauto.. |].
    simpl in Hlen.
    intros [<- | Hin]; [exists k, v; auto |].
    destruct (IH rest ltac:(lia) Hin) as (k' & v' & Hk & Hv & ->).
    exists k', v'. auto.
Qed.

(** The comments of every child node are parsed from the comment texts of
    some node of the tree. *)
Lemma child_comments root p n' :
  In n' (childNodes root (mem p)) ->
  exists q, nHeadComments n' = ParseComment (HeadComment (mem q))
            /\ nFootComment n' = ParseComment (FootComment (mem q)).
Proof.
  unfold childNodes. destruct (Kind (mem p)); simpl; try tauto.
  - intros (q & <- & _)%in_map_iff. now exists q.
  - intros (i & x & _ & ->)%(In_imap (sequenceChild root (mem p))).
    now exists p.
  - intros (k & v & _ & _ & ->)%(In_mappingChildren _ _ _ _ (le_n _)).
    now exists k.
  - intros [<- | []]. now exists p.
Qed.

Lemma parsed_no_section q :
  NoSectionDirectives ->
  Forall no_section (ParseComment (HeadComment (mem q)))
  /\ Forall no_section (ParseComment (FootComment (mem q))).
Proof.
  intros Hno. split; apply Forall_forall; intros c Hc%list_elem_of_In;
    apply (Hno q); auto.
Qed.

Lemma child_admissible A root p n' :
  A \/ NoSectionDirectives ->
  In n' (childNodes root (mem p)) -> admissible A n'.
Proof.
  intros [HA | Hno] Hin; [now left | right].
  destruct (child_comments _ _ _ Hin) as (q & -> & ->).
  now apply parsed_no_section.
Qed.

(** A stable invariant survives the whole walk. *)
Lemma walk_inv A I : stable A I -> A \/ NoSectionDirectives ->
  forall fuel n st r st',
    admissible A n -> I st -> walk fuel visit n st = Done (r, st') -> I st'.
Proof.
  intros HI HA. induction fuel as [|fuel IH]; intros n st r st' Hadm Hst H.
  - discriminate H.
  - destruct (visit n st) as [[[stop err] st1] | |] eqn:Hvisit.
    2,3: simpl in H; unfold bind in H; rewrite Hvisit in H; discriminate H.
    assert (I st1) as Hst1 by (eapply visit_inv; eauto).
    pose proof (visit_no_error _ _ _ _ _ Hvisit) as ->.
    destruct stop.
    { rewrite (walk_stop _ _ _ _ _ _ _ Hvisit) in H by auto.
      inversion H; now subst. }
    destruct (nRawNode n) as [p |] eqn:Hraw.
    2: { simpl in H. rewrite (bind_step _ _ _ _ _ Hvisit), Hraw in H.
         discriminate H. }
    rewrite (walk_unfold _ _ _ _ _ _ Hvisit Hraw) in H.
    inv_bind H as err st2 Hnodes. apply finish_done in H as [_ ->].
    eapply walkNodes_inv; [| exact Hst1 | exact Hnodes].
    intros n' s r' s' Hin Hs Hwalk.
    eapply IH; [| exact Hs | exact Hwalk].
    eapply child_admissible; eauto.
Qed.

Lemma walkNodes_no_error rec nodes : forall st r st',
  (forall n st r st', rec n st = Done (r, st') -> r = None) ->
  walkNodes rec nodes st = Done (r, st') -> r = None.
Proof.
  induction nodes as [|n rest IH]; intros st r st' Hrec H.
  - now inversion H.
  - simpl in H. inv_bind H as err st0 Hn.
    rewrite (Hrec _ _ _ _ Hn) in H. eauto.
Qed.

(** The walk of [Load] never returns an error. *)
Lemma walk_visit_no_error fuel : forall n st r st',
  walk fuel visit n st = Done (r, st') -> r = None.
Proof.
  induction fuel as [|fuel IH]; intros n st r st' H; [discriminate H |].
  destruct (visit n st) as [[[stop err] st1] | |] eqn:Hvisit.
  2,3: simpl in H; unfold bind in H; rewrite Hvisit in H; discriminate H.
  pose proof (visit_no_error _ _ _ _ _ Hvisit) as ->.
  destruct stop.
  { rewrite (walk_stop _ _ _ _ _ _ _ Hvisit) in H by auto. now inversion H. }
  destruct (nRawNode n) as [p |] eqn:Hraw.
  2: { simpl in H. rewrite (bind_step _ _ _ _ _ Hvisit), Hraw in H.
       discriminate H. }
  rewrite (walk_unfold _ _ _ _ _ _ Hvisit Hraw) in H.
  inv_bind H as err st2 Hnodes. apply finish_done in H as [-> _].
  eapply walkNodes_no_error; [| exact Hnodes]. exact IH.
Qed.

(** *** Appending to the last section *)

Lemma alter_last {A} (f : A -> A) (init : list A) (x : A) :
  alter f (length (init ++ [x]) - 1) (init ++ [x]) = init ++ [f x].
Proof.
  rewrite length_app. simpl. rewrite alter_app_r_alt by lia.
  replace (length init + 1 - 1 - length init) with 0 by lia. reflexivity.
Qed.

Lemma appendProperty_last p st init s :
  Sections (document st) = init ++ [s] ->
  appendProperty p st = Done (tt, appended p init s st).
Proof.
  intros Hs. unfold appendProperty, appended. rewrite Hs.
  destruct (Z.ltb_spec (Z.of_nat (length (init ++ [s])) - 1) 0) as [Hlt | _].
  { rewrite length_app in Hlt. simpl in Hlt. lia. }
  replace (Z.to_nat (Z.of_nat (length (init ++ [s])) - 1))
    with (length (init ++ [s]) - 1) by lia.
  now rewrite alter_last.
Qed.

Lemma appendProperty_done p st u st' :
  appendProperty p st = Done (u, st') ->
  exists init s,
    Sections (document st) = init ++ [s] /\ st' = appended p init s st.
Proof.
  intros H.
  destruct (Sections (document st)) as [|s0 rest] eqn:Hs using rev_ind.
  - unfold appendProperty in H. rewrite Hs in H. discriminate H.
  - clear IHrest. exists rest, s0. split; [reflexivity |].
    rewrite (appendProperty_last _ _ _ _ Hs) in H. now inversion H.
Qed.

Lemma appendProperty_total p st :
  Sections (document st) <> [] -> exists st', appendProperty p st = Done (tt, st').
Proof.
  intros Hne.
  destruct (Sections (document st)) as [|s0 rest] eqn:Hs using rev_ind;
    [congruence |].
  eexists. apply (appendProperty_last _ _ _ _ Hs).
Qed.

(** *** Stable invariants *)

Lemma openSection_done name description st u st' :
  openSection name description st = Done (u, st') ->
  Sections (document st')
  = Sections (document st)
    ++ [{| sName := name; sDescription := description; sProperties := [] |}]
  /\ discovered st' = discovered st.
Proof. intros H; inversion H; subst; auto. Qed.

Lemma logPrintln_done msg st u st' :
  logPrintln msg st = Done (u, st') ->
  document st' = document st /\ discovered st' = discovered st.
Proof. intros H; inversion H; subst; auto. Qed.

Lemma stable_nonempty : stable True nonempty.
Proof.
  unfold nonempty. split.
  - intros name description st st' _ Hst [-> _]%openSection_done.
    now destruct (Sections (document st)).
  - intros p st st' _ (init & s & _ & ->)%appendProperty_done. simpl.
    now destruct init.
  - intros msg st st' Hst [-> _]%logPrintln_done. exact Hst.
Qed.

Lemma stable_rooted : stable True rooted.
Proof.
  unfold rooted. split.
  - intros name description st st' _ (ps & rest & Hst) [-> _]%openSection_done.
    rewrite Hst. simpl. eauto.
  - intros p st st' (ps & rest & Hst) (init & s & Hs & ->)%appendProperty_done.
    simpl. rewrite Hst in Hs. destruct init as [|s0 init]; simpl in *.
    + inversion Hs; subst. unfold addProperty. simpl. eauto.
    + inversion Hs; subst. eauto.
  - intros msg st st' Hst [-> _]%logPrintln_done. exact Hst.
Qed.

Lemma stable_accounted : stable True accounted.
Proof.
  unfold accounted. split.
  - intros name description st st' _ Hst [-> ->]%openSection_done.
    rewrite map_app, concat_app, Hst. simpl. now rewrite !app_nil_r.
  - intros p st st' Hst (init & s & Hs & ->)%appendProperty_done. simpl.
    rewrite Hs in Hst. rewrite map_app, concat_app in *. simpl in *.
    rewrite app_nil_r in *. rewrite <- Hst. now rewrite app_assoc.
  - intros msg st st' Hst [-> ->]%logPrintln_done. exact Hst.
Qed.

Lemma stable_single : stable False single.
Proof.
  unfold single. split.
  - intros name description st st' [].
  - intros p st st' Hst (init & s & Hs & ->)%appendProperty_done. simpl.
    rewrite Hst in Hs. destruct init as [|s0 [|s1 init]]; simpl in Hs;
      inversion Hs; subst. reflexivity.
  - intros msg st st' Hst [-> ->]%logPrintln_done. exact Hst.
Qed.

(** *** The code block of a property comment *)

Lemma findCodeIdx_text sections : forall i codeIdx,
  Forall is_text sections -> findCodeIdx i sections codeIdx = codeIdx.
Proof.
  induction sections as [|s rest IH]; intros i codeIdx Hall; [reflexivity |].
  inversion Hall as [|? ? Hs Hrest]; subst. simpl.
  unfold is_text in Hs. rewrite Hs. now apply IH.
Qed.

Lemma findCodeIdx_last before sec after : forall i codeIdx,
  csType sec = CommentTypeCode -> Forall is_text after ->
  findCodeIdx i (before ++ sec :: after) codeIdx
  = (i + Z.of_nat (length before))%Z.
Proof.
  induction before as [|s rest IH]; intros i codeIdx Hsec Hafter.
  - simpl. rewrite Hsec, findCodeIdx_text by exact Hafter. lia.
  - simpl app. simpl findCodeIdx. rewrite IH by assumption.
    simpl length. lia.
Qed.

Lemma dropSection_above codeIdx sections : forall i,
  (codeIdx < i)%Z -> dropSection i codeIdx sections = sections.
Proof.
  induction sections as [|s rest IH]; intros i Hlt; [reflexivity |].
  simpl. destruct (Z.eqb_spec i codeIdx); [lia |].
  now rewrite IH by lia.
Qed.

Lemma dropSection_middle before sec after : forall i,
  dropSection i (i + Z.of_nat (length before)) (before ++ sec :: after)
  = before ++ after.
Proof.
  induction before as [|s rest IH]; intros i.
  - simpl. rewrite Z.add_0_r, Z.eqb_refl. apply dropSection_above. lia.
  - simpl app. simpl dropSection.
    destruct (Z.eqb_spec i (i + Z.of_nat (S (length rest)))); [lia |].
    f_equal. rewrite <- (IH (i + 1)%Z). f_equal. lia.
Qed.

(** The sections of a comment either hold no code block, or split around
    the last one. *)
Lemma sections_split (sections : list CommentSection) :
  Forall is_text sections
  \/ exists before sec after,
       sections = before ++ sec :: after
       /\ csType sec = CommentTypeCode /\ Forall is_text after.
Proof.
  induction sections as [|s rest [Hall | (before & sec & after & -> & Hsec & Hafter)]].
  - left. constructor.
  - destruct (csType s) eqn:Hs.
    + left. now constructor.
    + right. exists [], s, rest. auto.
  - right. exists (s :: before), sec, after. auto.
Qed.

Lemma inferFromCode_text path c :
  Forall is_text (cSections c) ->
  inferFromCode path c = Done (unparsedNode c, c).
Proof.
  intros Hall. unfold inferFromCode.
  now rewrite findCodeIdx_text by exact Hall.
Qed.

Lemma inferFromCode_last path c before sec after :
  cSections c = before ++ sec :: after ->
  csType sec = CommentTypeCode -> Forall is_text after ->
  inferFromCode path c
  = Done (match singleKeyMapping path (unparsedNode c)
                  (yaml_Unmarshal (CommentSection_String sec)) with
          | Some parsed =>
              (parsed, {| cTags := cTags c; cSections := before ++ after |})
          | None => (unparsedNode c, c)
          end).
Proof.
  intros Hs Hsec Hafter. unfold inferFromCode.
  rewrite Hs, findCodeIdx_last by assumption. rewrite Z.add_0_l.
  destruct (Z.eqb_spec (Z.of_nat (length before)) (-1)); [lia |].
  rewrite Nat2Z.id, list_lookup_middle by reflexivity.
  rewrite <- (Z.add_0_l (Z.of_nat (length before))), dropSection_middle.
  now destruct (singleKeyMapping _ _ _).
Qed.

Lemma inferFromCode_total path c :
  exists parsedNode comment,
    inferFromCode path c = Done (parsedNode, comment)
    /\ cTags comment = cTags c.
Proof.
  destruct (sections_split (cSections c))
    as [Hall | (before & sec & after & Hs & Hsec & Hafter)].
  - rewrite inferFromCode_text by exact Hall. eauto.
  - rewrite (inferFromCode_last _ _ _ _ _ Hs Hsec Hafter).
    destruct (singleKeyMapping _ _ _); eauto.
Qed.

(** *** The walk returns on finite trees *)

Lemma parseComment_total path c st :
  nonempty st ->
  exists st', parseCommentOntoDocument path c st = Done (tt, st').
Proof.
  intros Hne. unfold parseCommentOntoDocument.
  destruct (Tags_GetBool (cTags c) TagSection); [eexists; reflexivity |].
  destruct (Tags_GetBool (cTags c) TagProperty); [| eexists; reflexivity].
  destruct (inferFromCode_total path c) as (parsedNode & comment & Hinfer & _).
  unfold bind, lift. rewrite Hinfer.
  destruct (String.eqb _ ""); [destruct (String.eqb _ "") |];
    try apply (appendProperty_total _ _ Hne).
  eexists; reflexivity.
Qed.

Lemma parseComments_total path cs : forall st,
  nonempty st ->
  exists st', parseCommentsOntoDocument path cs st = Done (tt, st')
              /\ nonempty st'.
Proof.
  induction cs as [|c rest IH]; intros st Hne.
  - exists st. auto.
  - destruct (parseComment_total path c st Hne) as (st1 & H1).
    assert (nonempty st1) as Hne1.
    { eapply (parseComment_inv True); eauto using stable_nonempty. }
    destruct (IH st1 Hne1) as (st' & H & Hne').
    exists st'. split; [| exact Hne']. simpl.
    now rewrite (bind_step _ _ _ _ _ H1).
Qed.

Lemma visitBody_total node comment st p :
  nRawNode node = Some p -> nonempty st ->
  exists stop st', visitBody node comment st = Done ((stop, None), st').
Proof.
  intros Hraw Hne. unfold visitBody.
  destruct (Tags_GetBool (cTags comment) TagIgnore); [eexists _, _; reflexivity |].
  assert (exists b, isEndNode node comment = Done b) as [isEnd Hend].
  { unfold isEndNode. rewrite Hraw.
    destruct (Kind (mem p)), (Tags_GetBool (cTags comment) TagProperty);
      eauto. }
  unfold bind at 1, lift at 1. rewrite Hend.
  destruct isEnd; cbn [negb].
  - assert (exists d, getDefaultValue node comment = Done d) as [d Hdef].
    { unfold getDefaultValue. rewrite Hraw. destruct (negb _); eauto. }
    unfold bind at 1, lift at 1. rewrite Hdef.
    destruct (appendProperty_total
                {| pName := Path_String (nPath node);
                   pDescription := comment;
                   pType := getTypeOf node comment;
                   pDefault := d |} st Hne) as (st' & Happ).
    exists true, st'. now rewrite (bind_step _ _ _ _ _ Happ).
  - destruct (parseComments_total (Path_Parent (nPath node)) [comment] st Hne)
      as (st' & Hfwd & _).
    exists false, st'. now rewrite (bind_step _ _ _ _ _ Hfwd).
Qed.

Lemma visit_total node st p :
  nRawNode node = Some p -> nonempty st ->
  exists stop st', visit node st = Done ((stop, None), st') /\ nonempty st'.
Proof.
  intros Hraw Hne.
  assert (exists stop st', visit node st = Done ((stop, None), st'))
    as (stop & st' & Hvisit).
  { unfold visit.
    destruct (Comments_Pop (nHeadComments node)) as [[comment b] remaining].
    destruct (parseComments_total (Path_Parent (nPath node)) remaining st Hne)
      as (st1 & Hhead & Hne1).
    destruct (visitBody_total node comment st1 p Hraw Hne1)
      as (stop & st2 & Hbody).
    assert (nonempty st2) as Hne2.
    { eapply (visitBody_inv True); eauto using stable_nonempty. }
    destruct (parseComments_total (Path_Parent (nPath node))
                (nFootComment node) st2 Hne2) as (st3 & Hfoot & _).
    exists stop, st3.
    rewrite (bind_step _ _ _ _ _ Hhead), (bind_step _ _ _ _ _ Hbody).
    now rewrite (bind_step _ _ _ _ _ Hfoot). }
  exists stop, st'. split; [exact Hvisit |].
  eapply (visit_inv True); eauto using stable_nonempty. now left.
Qed.

Lemma walkNodes_total rec nodes : forall st,
  (forall n st, In n nodes -> nonempty st ->
     exists st', rec n st = Done (None, st') /\ nonempty st') ->
  nonempty st ->
  exists st', walkNodes rec nodes st = Done (None, st') /\ nonempty st'.
Proof.
  induction nodes as [|n rest IH]; intros st Hrec Hne.
  - exists st. auto.
  - destruct (Hrec n st (or_introl eq_refl) Hne) as (st1 & Hn & Hne1).
    destruct (IH st1) as (st' & Hrest & Hne'); [| exact Hne1 |].
    { intros; apply Hrec; auto. now right. }
    exists st'. split; [| exact Hne']. simpl.
    now rewrite (bind_step _ _ _ _ _ Hn).
Qed.

Lemma forallb_In {A} (f : A -> bool) (l : list A) (x : A) :
  forallb f l = true -> In x l -> f x = true.
Proof. intros H Hin. rewrite forallb_forall in H. now apply H. Qed.

(** The children of a well-formed node are well-formed one level down. *)
Lemma child_wf depth root p n' :
  wf_tree (S depth) p = true ->
  In n' (childNodes root (mem p)) ->
  exists c, nRawNode n' = Some c /\ wf_tree depth c = true.
Proof.
  simpl. unfold childNodes. destruct (Kind (mem p)); simpl; try tauto.
  - intros Hall (c & <- & Hc)%in_map_iff. exists c.
    split; [reflexivity | eapply forallb_In; eauto].
  - intros Hall (i & c & Hc & ->)%(In_imap (sequenceChild root (mem p))).
    exists c. split; [reflexivity | eapply forallb_In; eauto].
  - intros [_ Hall]%andb_prop
      (k & v & _ & Hv & ->)%(In_mappingChildren _ _ _ _ (le_n _)).
    exists v. split; [reflexivity | eapply forallb_In; eauto].
  - destruct (Alias (mem p)) as [target |] eqn:Halias; [| discriminate].
    intros Hwf [<- | []]. exists target. simpl. auto.
Qed.

Lemma finish_wf depth p st :
  wf_tree (S depth) p = true -> finish (mem p) None st = Done (None, st).
Proof.
  simpl. unfold finish. destruct (Kind (mem p)); try reflexivity.
  intros [Heven _]%andb_prop. rewrite <- Nat.negb_even, Heven. reflexivity.
Qed.

Lemma walk_total : forall fuel depth p n st,
  depth <= fuel -> wf_tree depth p = true ->
  nRawNode n = Some p -> nonempty st ->
  exists st', walk fuel visit n st = Done (None, st') /\ nonempty st'.
Proof.
  induction fuel as [|fuel IH]; intros depth p n st Hle Hwf Hraw Hne.
  { destruct depth; [discriminate Hwf | lia]. }
  destruct depth as [|depth]; [discriminate Hwf |].
  destruct (visit_total n st p Hraw Hne) as (stop & st1 & Hvisit & Hne1).
  destruct stop.
  { exists st1. split; [| exact Hne1]. apply (walk_stop _ _ _ _ _ _ _ Hvisit).
    now left. }
  rewrite (walk_unfold _ _ _ _ _ _ Hvisit Hraw).
  destruct (walkNodes_total (walk fuel visit) (childNodes n (mem p)) st1)
    as (st2 & Hnodes & Hne2); [| exact Hne1 |].
  { intros n' s Hin Hs.
    destruct (child_wf _ _ _ _ Hwf Hin) as (c & Hc & Hwfc).
    apply (IH depth c); auto. lia. }
  exists st2. split; [| exact Hne2].
  rewrite (bind_step _ _ _ _ _ Hnodes). eapply finish_wf; eauto.
Qed.

End WalkerFacts.

(** ** Properties of the walker *)

Section Claims.

Context {W : World}.

Lemma bind_finish (m : M (option error)) raw st :
  (Kind raw = MappingNode -> Nat.odd (length (Content raw)) = false) ->
  (let* err := m in finish raw err) st = m st.
Proof.
  intros Hraw. unfold bind, finish.
  destruct (m st) as [[[e |] st1] | |]; try reflexivity.
  destruct (Kind raw); try reflexivity. now rewrite Hraw.
Qed.

Lemma mappingChildren_pairs root (pairs : list (ptr * ptr)) :
  mappingChildren root (flat_map (fun kv => [fst kv; snd kv]) pairs)
  = map (fun kv => mappingChild root (fst kv) (snd kv)) pairs.
Proof.
  induction pairs as [|[k v] rest IH]; simpl; [reflexivity | now rewrite IH].
Qed.

Lemma pairs_length_even (pairs : list (ptr * ptr)) :
  Nat.odd (length (flat_map (fun kv => [fst kv; snd kv]) pairs)) = false.
Proof. induction pairs as [|[k v] rest IH]; simpl; auto. Qed.

(** C10. When the walk descends into a sequence node, the child node of
    every element gets the head and foot comments parsed from the comment
    texts of the sequence node itself, the same for all elements, and the
    comment texts of the element are not read; the child node of a mapping
    value gets the comments parsed from the texts of its key node. *)
Theorem sequence_children_comments (fuel : nat)
  (fn : Node -> M (bool * option error)) (root : Node) (st st1 : Assembly)
  (p : ptr) :
  nRawNode root = Some p ->
  fn root st = Done ((false, None), st1) ->
  (Kind (mem p) = SequenceNode ->
   walk (S fuel) fn root st
   = walkNodes (walk fuel fn)
       (imap (fun i element =>
                {| nPath := Path_WithIndex (nPath root) i;
                   nHeadComments := ParseComment (HeadComment (mem p));
                   nFootComment := ParseComment (FootComment (mem p));
                   nRawNode := Some element |})
             (Content (mem p))) st1)
  /\ (Kind (mem p) = MappingNode ->
      forall pairs : list (ptr * ptr),
        Content (mem p) = flat_map (fun kv => [fst kv; snd kv]) pairs ->
        walk (S fuel) fn root st
        = walkNodes (walk fuel fn)
            (map (fun kv =>
                    {| nPath := Path_WithProperty (nPath root)
                                  (Value (mem (fst kv)));
                       nHeadComments :=
                         ParseComment (HeadComment (mem (fst kv)));
                       nFootComment :=
                         ParseComment (FootComment (mem (fst kv)));
                       nRawNode := Some (snd kv) |})
                 pairs) st1).
Proof.
  intros Hraw Hfn. rewrite (walk_unfold _ _ _ _ _ _ Hfn Hraw). split.
  - intros Hkind. rewrite bind_finish by congruence.
    unfold childNodes. rewrite Hkind. reflexivity.
  - intros Hkind pairs Hpairs. rewrite bind_finish.
    + unfold childNodes. rewrite Hkind, Hpairs, mappingChildren_pairs.
      reflexivity.
    + intros _. rewrite Hpairs. apply pairs_length_even.
Qed.

(** C5. The classification of end nodes goes by a fixed order of tests:
    a document node is never an end node; a scalar node always is; any
    other node whose directive comment sets [docs:property] is; an empty
    mapping or sequence is; a non-empty mapping or sequence without the
    directive is not, nor is any other node; and when the node the callback
    is called on is an end node, the walk returns after the callback
    without visiting any child. *)
Theorem isEndNode_priority (n : Node) (c : Comment) (p : ptr) :
  nRawNode n = Some p ->
  (Kind (mem p) = DocumentNode -> isEndNode n c = Done false)
  /\ (Kind (mem p) = ScalarNode -> isEndNode n c = Done true)
  /\ (Kind (mem p) <> DocumentNode ->
      Tags_GetBool (cTags c) TagProperty = true -> isEndNode n c = Done true)
  /\ (Kind (mem p) = MappingNode \/ Kind (mem p) = SequenceNode ->
      Content (mem p) = [] -> isEndNode n c = Done true)
  /\ (Kind (mem p) = MappingNode \/ Kind (mem p) = SequenceNode ->
      Content (mem p) <> [] ->
      Tags_GetBool (cTags c) TagProperty = false ->
      isEndNode n c = Done false)
  /\ (Kind (mem p) = AliasNode \/ Kind (mem p) = ZeroKind ->
      Tags_GetBool (cTags c) TagProperty = false ->
      isEndNode n c = Done false)
  /\ (forall b remaining fuel st,
        Comments_Pop (nHeadComments n) = (c, b, remaining) ->
        isEndNode n c = Done true ->
        walk (S fuel) visit n st = (let* _ := visit n in ret None) st).
Proof.
  intros Hraw. unfold isEndNode. rewrite Hraw.
  repeat split.
  - now intros ->.
  - now intros ->.
  - intros Hk ->. now destruct (Kind (mem p)).
  - intros [-> | ->] ->; now destruct (Tags_GetBool _ _).
  - intros [-> | ->] Hc ->; (destruct (Content (mem p)); [congruence | reflexivity]).
  - now intros [-> | ->] ->.
  - intros b remaining fuel st Hpop Hend.
    destruct (visit n st) as [[[stop err] st1] | |] eqn:Hvisit.
    2,3: simpl; unfold bind; now rewrite Hvisit.
    rewrite (bind_step _ _ _ _ _ Hvisit). unfold ret.
    pose proof (visit_no_error _ _ _ _ _ Hvisit) as ->.
    apply (walk_stop _ _ _ _ _ _ _ Hvisit). left.
    apply visit_done in Hvisit
      as (c' & b' & remaining' & u1 & s1 & s2 & u2 & Hpop' & _ & Hbody & _).
    rewrite Hpop in Hpop'. inversion Hpop'; subst c' b' remaining'.
    apply visitBody_result in Hbody as [_ Hstop]. simpl in Hstop.
    destruct (Tags_GetBool (cTags c) TagIgnore); [exact Hstop |].
    unfold isEndNode in Hstop. rewrite Hraw in Hstop. congruence.
Qed.

Lemma parseComment_quiet path c st u st' :
  Tags_GetBool (cTags c) TagProperty = false ->
  parseCommentOntoDocument path c st = Done (u, st') ->
  discovered st' = discovered st.
Proof.
  unfold parseCommentOntoDocument. intros ->.
  destruct (Tags_GetBool (cTags c) TagSection); intros H; inversion H;
    reflexivity.
Qed.

Lemma parseComments_quiet path cs : forall st u st',
  Forall (fun c => Tags_GetBool (cTags c) TagProperty = false) cs ->
  parseCommentsOntoDocument path cs st = Done (u, st') ->
  discovered st' = discovered st.
Proof.
  induction cs as [|c rest IH]; intros st u st' Hall H.
  - now inversion H.
  - inversion Hall; subst. simpl in H. inv_bind H as u0 st0 Hfirst.
    rewrite (IH _ _ _ ltac:(assumption) H).
    eapply parseComment_quiet; eauto.
Qed.

(** C6. When the directive comment popped for a node sets [docs:ignore],
    the walk of the node is exactly the processing of its remaining head
    comments and of its foot comments on its parent path: no property is
    emitted for the node, no descendant is visited, and when the forwarded
    comments declare no property of their own the list of properties is
    unchanged. *)
Theorem ignore_skips_subtree (n : Node) (comment : Comment) (b : bool)
  (remaining : Comments) (fuel : nat) (st : Assembly) :
  Comments_Pop (nHeadComments n) = (comment, b, remaining) ->
  Tags_GetBool (cTags comment) TagIgnore = true ->
  walk (S fuel) visit n st
  = (let* _ := parseCommentsOntoDocument (Path_Parent (nPath n)) remaining in
     let* _ := parseCommentsOntoDocument (Path_Parent (nPath n))
                 (nFootComment n) in
     ret None) st
  /\ (Forall (fun c => Tags_GetBool (cTags c) TagProperty = false)
        (remaining ++ nFootComment n) ->
      forall r st', walk (S fuel) visit n st = Done (r, st') ->
                    discovered st' = discovered st).
Proof.
  intros Hpop Hignore.
  assert (walk (S fuel) visit n st
          = (let* _ := parseCommentsOntoDocument (Path_Parent (nPath n))
                         remaining in
             let* _ := parseCommentsOntoDocument (Path_Parent (nPath n))
                         (nFootComment n) in
             ret None) st) as Heq.
  { simpl walk. unfold visit. rewrite Hpop. unfold visitBody.
    rewrite Hignore. unfold bind, ret.
    destruct (parseCommentsOntoDocument _ remaining st) as [[u1 st1] | |];
      try reflexivity.
    destruct (parseCommentsOntoDocument _ (nFootComment n) st1)
      as [[u2 st2] | |]; reflexivity. }
  split; [exact Heq |].
  intros [Hhead Hfoot]%Forall_app r st'. rewrite Heq. intros H.
  inv_bind H as u1 st1 H1. inv_bind H as u2 st2 H2. inversion H; subst.
  rewrite (parseComments_quiet _ _ _ _ _ Hfoot H2).
  apply (parseComments_quiet _ _ _ _ _ Hhead H1).
Qed.

(** C4. The document [Load] returns always starts with the unnamed root
    section created before the walk; the sections together hold exactly
    the properties discovered, in discovery order, because every property
    is appended to the last section; when no comment of the tree carries a
    [docs:section] directive the root section is the only one and holds all
    of them; and on a finite well-formed tree the walk does return. *)
Theorem build_sections :
  (forall fuel decoded doc err,
     Done (Some doc, err) = Load fuel decoded ->
     exists ps rest,
       Sections doc
       = {| sName := ""; sDescription := ""; sProperties := ps |} :: rest)
  /\ (forall fuel root err st,
        build fuel root = Done (err, st) ->
        concat (map sProperties (Sections (document st))) = discovered st
        /\ (NoSectionDirectives ->
            Sections (document st)
            = [{| sName := ""; sDescription := "";
                  sProperties := discovered st |}]))
  /\ (forall p st init s,
        Sections (document st) = init ++ [s] ->
        appendProperty p st
        = Done (tt, {| document := {| Sections := init ++ [addProperty p s] |};
                       diagnostics := diagnostics st;
                       discovered := discovered st ++ [p] |}))
  /\ (forall depth root fuel,
        wf_tree depth root = true -> depth <= fuel ->
        exists st, build fuel root = Done (None, st)).
Proof.
  repeat split.
  - intros fuel [e | root] doc err H; symmetry in H; simpl in H;
      [discriminate H |].
    destruct (build fuel root) as [[err' st] | |] eqn:Hbuild;
      inversion H; subst.
    apply (walk_inv True rooted stable_rooted (or_introl I)
             fuel (rootNode root) emptyAssembly err st);
      [now left | | exact Hbuild].
    exists [], []. reflexivity.
  - apply (walk_inv True accounted stable_accounted (or_introl I)
             fuel (rootNode root) emptyAssembly err st);
      [now left | reflexivity | assumption].
  - intros Hno.
    apply (walk_inv False single stable_single (or_intror Hno)
             fuel (rootNode root) emptyAssembly err st);
      [| reflexivity | assumption].
    right. apply (parsed_no_section root Hno).
  - intros p st init s. apply appendProperty_last.
  - intros depth root fuel Hwf Hle.
    destruct (walk_total fuel depth root (rootNode root) emptyAssembly Hle Hwf
                eq_refl) as (st & Hwalk & _); [discriminate |].
    now exists st.
Qed.

Lemma walkNodes_stuck rec nodes n' :
  In n' nodes ->
  (forall st r, rec n' st <> Done r) ->
  (forall n st r st', rec n st = Done (r, st') -> r = None) ->
  forall st r, walkNodes rec nodes st <> Done r.
Proof.
  intros Hin Hstuck Hnoerr.
  induction nodes as [|n rest IH]; [destruct Hin |].
  intros st r H. simpl in H. inv_bind H as err st1 Hn.
  rewrite (Hnoerr _ _ _ _ Hn) in H.
  destruct Hin as [-> | Hin]; [now apply (Hstuck st (err, st1)) |].
  now apply (IH Hin st1 r).
Qed.

(** On an alias cycle the walk of [Load] has no result, whatever the
    number of nested calls allowed. *)
Lemma walk_cycle_stuck (C : Node -> Prop) :
  alias_cycle C ->
  forall fuel n st r, C n -> walk fuel visit n st <> Done r.
Proof.
  intros Hcycle. induction fuel as [|fuel IH]; intros n st r Hn H;
    [discriminate H |].
  destruct (Hcycle n Hn) as (Henter & n' & (p & Hraw & Hin) & Hn').
  destruct (visit n st) as [[[stop err] st1] | |] eqn:Hvisit.
  2,3: simpl in H; unfold bind in H; rewrite Hvisit in H; discriminate H.
  pose proof (Henter _ _ _ _ Hvisit) as ->.
  pose proof (visit_no_error _ _ _ _ _ Hvisit) as ->.
  rewrite (walk_unfold _ _ _ _ _ _ Hvisit Hraw) in H.
  inv_bind H as err st2 Hnodes.
  eapply (walkNodes_stuck (walk fuel visit)); [exact Hin | | | exact Hnodes].
  - intros s r'. now apply IH.
  - apply walk_visit_no_error.
Qed.

(** C1 (amended). The walk has no cycle detection. It returns an error
    only when the callback returned one, and then returns that error at
    once; the callback of [Load] never returns an error, so the walk of
    [Load] reports none on any tree; and on an alias cycle (nodes the
    callback does not stop at, each with a child among them) that walk
    returns nothing at all, however many nested calls are allowed. *)
Theorem walk_has_no_cycle_check :
  (forall fuel n st err st',
     walk fuel visit n st = Done (err, st') -> err = None)
  /\ (forall fuel (fn : Node -> M (bool * option error)) n st stop e st1,
        fn n st = Done ((stop, Some e), st1) ->
        walk (S fuel) fn n st = Done (Some e, st1))
  /\ (forall C : Node -> Prop,
        alias_cycle C ->
        forall fuel n st r, C n -> walk fuel visit n st <> Done r).
Proof.
  repeat split.
  - apply walk_visit_no_error.
  - intros fuel fn n st stop e st1 Hfn.
    apply (walk_stop _ _ _ _ _ _ _ Hfn). now right.
  - apply walk_cycle_stuck.
Qed.

(** What a property comment does to the assembly, given the outcome of the
    inference from its code block. *)
Lemma parseComment_property path c parsedNode comment st :
  Tags_GetBool (cTags c) TagSection = false ->
  Tags_GetBool (cTags c) TagProperty = true ->
  inferFromCode path c = Done (parsedNode, comment) ->
  parseCommentOntoDocument path c st
  = (let name := Tags_GetString (cTags comment) TagProperty in
     if String.eqb name "" then
       let name := Path_String (nPath parsedNode) in
       if String.eqb name "" then
         logPrintln "could not calculate undefined property name" st
       else appendProperty (syntheticProperty name parsedNode comment) st
     else appendProperty (syntheticProperty name parsedNode comment) st).
Proof.
  intros Hsection Hproperty Hinfer. unfold parseCommentOntoDocument.
  rewrite Hsection, Hproperty. unfold bind, lift. rewrite Hinfer. simpl.
  destruct (String.eqb _ ""); [destruct (String.eqb _ "") |]; reflexivity.
Qed.

Lemma singleKeyMapping_path path parsedNode node parsed :
  singleKeyMapping path parsedNode node = Some parsed ->
  exists keyNode valueNode,
    nPath parsed = Path_WithProperty path (Value (mem keyNode))
    /\ nRawNode parsed = Some valueNode.
Proof.
  unfold singleKeyMapping. destruct (Content node) as [|first rest];
    [discriminate |].
  destruct (Kind (mem first)); try discriminate.
  destruct (Content (mem first)) as [|k [|v [|x l]]]; try discriminate.
  intros H; inversion H; subst. simpl. eauto.
Qed.

(** C2 (amended). When a forwarded [docs:property] comment holds several
    code segments, the inference uses the last of them: that is the
    segment handed to the YAML parser for the name and the type, and the
    one removed from the description when it parses as a single-key
    mapping; earlier code segments stay in the description. *)
Theorem property_inference_uses_last_code (path : Path) (c : Comment)
  (before after : list CommentSection) (sec : CommentSection) :
  cSections c = before ++ sec :: after ->
  csType sec = CommentTypeCode ->
  Forall is_text after ->
  inferFromCode path c
  = Done (match singleKeyMapping path (unparsedNode c)
                  (yaml_Unmarshal (CommentSection_String sec)) with
          | Some parsed =>
              (parsed, {| cTags := cTags c; cSections := before ++ after |})
          | None => (unparsedNode c, c)
          end)
  /\ (forall first rest keyNode valueNode st init s,
        Content (yaml_Unmarshal (CommentSection_String sec)) = first :: rest ->
        Kind (mem first) = MappingNode ->
        Content (mem first) = [keyNode; valueNode] ->
        Tags_GetBool (cTags c) TagSection = false ->
        Tags_GetBool (cTags c) TagProperty = true ->
        Tags_GetString (cTags c) TagProperty = "" ->
        Path_String (Path_WithProperty path (Value (mem keyNode))) <> "" ->
        Sections (document st) = init ++ [s] ->
        let described :=
          {| cTags := cTags c; cSections := before ++ after |} in
        let parsed :=
          {| nPath := Path_WithProperty path (Value (mem keyNode));
             nHeadComments := [c];
             nFootComment := [];
             nRawNode := Some valueNode |} in
        let property :=
          {| pName := Path_String (nPath parsed);
             pDescription := described;
             pType := getTypeOf parsed described;
             pDefault := "undefined" |} in
        parseCommentOntoDocument path c st
        = Done (tt, {| document :=
                         {| Sections := init ++ [addProperty property s] |};
                       diagnostics := diagnostics st;
                       discovered := discovered st ++ [property] |})).
Proof.
  intros Hs Hsec Hafter.
  pose proof (inferFromCode_last path c before sec after Hs Hsec Hafter)
    as Hinfer.
  split; [exact Hinfer |].
  intros first rest keyNode valueNode st init s Hcontent Hkind Hpair
    Hsection Hproperty Hexplicit Hname Hsections described parsed property.
  assert (singleKeyMapping path (unparsedNode c)
            (yaml_Unmarshal (CommentSection_String sec)) = Some parsed)
    as Hsingle.
  { unfold singleKeyMapping. now rewrite Hcontent, Hkind, Hpair. }
  rewrite Hsingle in Hinfer.
  rewrite (parseComment_property _ _ _ _ _ Hsection Hproperty Hinfer).
  simpl. rewrite Hexplicit. simpl.
  destruct (String.eqb_spec
              (Path_String (Path_WithProperty path (Value (mem keyNode)))) "")
    as [Heq | _]; [contradiction |].
  apply (appendProperty_last _ _ _ _ Hsections).
Qed.

Lemma single_key_mapping_parsed path parsedNode node keyNode valueNode :
  single_key_mapping node keyNode valueNode ->
  singleKeyMapping path parsedNode node
  = Some {| nPath := Path_WithProperty path (Value (mem keyNode));
            nHeadComments := nHeadComments parsedNode;
            nFootComment := nFootComment parsedNode;
            nRawNode := Some valueNode |}.
Proof.
  intros (first & rest & Hcontent & Hkind & Hpair). unfold singleKeyMapping.
  now rewrite Hcontent, Hkind, Hpair.
Qed.

Lemma single_key_mapping_unparsed path parsedNode node :
  (forall keyNode valueNode, ~ single_key_mapping node keyNode valueNode) ->
  singleKeyMapping path parsedNode node = None.
Proof.
  intros Hnot. unfold singleKeyMapping.
  destruct (Content node) as [|first rest] eqn:Hcontent; [reflexivity |].
  destruct (Kind (mem first)) eqn:Hkind; try reflexivity.
  destruct (Content (mem first)) as [|k [|v [|x l]]] eqn:Hpair;
    try reflexivity.
  exfalso. apply (Hnot k v). exists first, rest. auto.
Qed.

(** The inference from the last code block of a comment when the block
    parses as a single-key mapping, and when there is no code block or the
    last one does not parse so. *)
Lemma inferFromCode_parsed path c before sec after keyNode valueNode :
  cSections c = before ++ sec :: after ->
  csType sec = CommentTypeCode -> Forall is_text after ->
  single_key_mapping (yaml_Unmarshal (CommentSection_String sec))
    keyNode valueNode ->
  inferFromCode path c
  = Done ({| nPath := Path_WithProperty path (Value (mem keyNode));
             nHeadComments := [c];
             nFootComment := [];
             nRawNode := Some valueNode |},
          {| cTags := cTags c; cSections := before ++ after |}).
Proof.
  intros Hs Hsec Hafter Hsingle.
  rewrite (inferFromCode_last _ _ _ _ _ Hs Hsec Hafter).
  now rewrite (single_key_mapping_parsed _ _ _ _ _ Hsingle).
Qed.

Lemma inferFromCode_unparsed path c :
  Forall is_text (cSections c)
  \/ (exists before sec after,
        cSections c = before ++ sec :: after
        /\ csType sec = CommentTypeCode /\ Forall is_text after
        /\ forall keyNode valueNode,
             ~ single_key_mapping (yaml_Unmarshal (CommentSection_String sec))
                 keyNode valueNode) ->
  inferFromCode path c = Done (unparsedNode c, c).
Proof.
  intros [Hall | (before & sec & after & Hs & Hsec & Hafter & Hnot)].
  - now apply inferFromCode_text.
  - rewrite (inferFromCode_last _ _ _ _ _ Hs Hsec Hafter).
    now rewrite single_key_mapping_unparsed.
Qed.

(** The three outcomes of a property comment, given the inference from
    its code block: named by the directive value, named by the inferred
    path, or dropped with a diagnostic. *)
Lemma parseComment_named path c st init s parsedNode described :
  Tags_GetBool (cTags c) TagSection = false ->
  Tags_GetBool (cTags c) TagProperty = true ->
  Sections (document st) = init ++ [s] ->
  inferFromCode path c = Done (parsedNode, described) ->
  cTags described = cTags c ->
  let explicit := Tags_GetString (cTags c) TagProperty in
  let inferred := Path_String (nPath parsedNode) in
  let named name :=
    appended {| pName := name;
                pDescription := described;
                pType := getTypeOf parsedNode described;
                pDefault := "undefined" |} init s st in
  (explicit <> "" ->
   parseCommentOntoDocument path c st = Done (tt, named explicit))
  /\ (explicit = "" -> inferred <> "" ->
      parseCommentOntoDocument path c st = Done (tt, named inferred))
  /\ (explicit = "" -> inferred = "" ->
      parseCommentOntoDocument path c st = Done (tt, unnamed st)).
Proof.
  intros Hsection Hproperty Hsections Hinfer Htags explicit inferred named.
  pose proof (parseComment_property _ _ _ _ st Hsection Hproperty Hinfer)
    as Hparse.
  rewrite Htags in Hparse. simpl in Hparse. fold explicit inferred in Hparse.
  split; [| split].
  - intros Hexplicit. rewrite Hparse.
    destruct (String.eqb_spec explicit ""); [contradiction |].
    apply (appendProperty_last _ _ _ _ Hsections).
  - intros Hexplicit Hname. rewrite Hparse, Hexplicit. simpl.
    destruct (String.eqb_spec inferred ""); [contradiction |].
    apply (appendProperty_last _ _ _ _ Hsections).
  - intros Hexplicit Hname. rewrite Hparse, Hexplicit, Hname. reflexivity.
Qed.

(** C3 (amended). The name of a synthetic property is the explicit value
    of its [docs:property] directive when that value is not empty, also
    when the last code block of the comment parses as a single-key mapping;
    only without an explicit value is it the rendering of the inferred
    path, which is the key of that mapping appended to the forwarding
    path.  When there is no code block, or the last one does not parse as
    a single-key mapping, nothing is inferred: the property is named by the
    explicit value, if any.  In every case where neither source gives a
    name the property is dropped: one diagnostic is logged, the document
    is unchanged and the call returns normally, as it does in all cases. *)
Theorem synthetic_property_name (path : Path) (c : Comment) (st : Assembly)
  (init : list DocSection) (s : DocSection) :
  Tags_GetBool (cTags c) TagSection = false ->
  Tags_GetBool (cTags c) TagProperty = true ->
  Sections (document st) = init ++ [s] ->
  let explicit := Tags_GetString (cTags c) TagProperty in
  let named name node described :=
    appended {| pName := name;
                pDescription := described;
                pType := getTypeOf node described;
                pDefault := "undefined" |} init s st in
  (forall before sec after keyNode valueNode,
     cSections c = before ++ sec :: after ->
     csType sec = CommentTypeCode ->
     Forall is_text after ->
     single_key_mapping (yaml_Unmarshal (CommentSection_String sec))
       keyNode valueNode ->
     let inferred := Path_WithProperty path (Value (mem keyNode)) in
     let parsed :=
       {| nPath := inferred;
          nHeadComments := [c];
          nFootComment := [];
          nRawNode := Some valueNode |} in
     let described :=
       {| cTags := cTags c; cSections := before ++ after |} in
     (explicit <> "" ->
      parseCommentOntoDocument path c st
      = Done (tt, named explicit parsed described))
     /\ (explicit = "" -> Path_String inferred <> "" ->
         parseCommentOntoDocument path c st
         = Done (tt, named (Path_String inferred) parsed described))
     /\ (explicit = "" -> Path_String inferred = "" ->
         parseCommentOntoDocument path c st = Done (tt, unnamed st)))
  /\ (Forall is_text (cSections c)
      \/ (exists before sec after,
            cSections c = before ++ sec :: after
            /\ csType sec = CommentTypeCode /\ Forall is_text after
            /\ forall keyNode valueNode,
                 ~ single_key_mapping
                     (yaml_Unmarshal (CommentSection_String sec))
                     keyNode valueNode) ->
      (explicit <> "" ->
       parseCommentOntoDocument path c st
       = Done (tt, named explicit (unparsedNode c) c))
      /\ (explicit = "" ->
          parseCommentOntoDocument path c st = Done (tt, unnamed st)))
  /\ (exists st', parseCommentOntoDocument path c st = Done (tt, st')).
Proof.
  intros Hsection Hproperty Hsections explicit named.
  split; [| split].
  - intros before sec after keyNode valueNode Hs Hsec Hafter Hsingle
      inferred parsed described.
    exact (parseComment_named path c st init s parsed described Hsection
             Hproperty Hsections
             (inferFromCode_parsed _ _ _ _ _ _ _ Hs Hsec Hafter Hsingle)
             eq_refl).
  - intros Hnone.
    destruct (parseComment_named path c st init s (unparsedNode c) c Hsection
                Hproperty Hsections (inferFromCode_unparsed _ _ Hnone)
                eq_refl) as (Hexplicit & _ & Hdropped).
    split; [exact Hexplicit |].
    intros Hempty. now apply Hdropped.
  - apply parseComment_total. unfold nonempty. rewrite Hsections.
    now destruct init.
Qed.

(** *** The properties a run of comments adds *)

Lemma adds_only_refl P st st' :
  properties st' = properties st -> adds_only P st st'.
Proof. intros H. exists []. rewrite app_nil_r. split; [exact H | constructor]. Qed.

Lemma adds_only_trans P st1 st2 st3 :
  adds_only P st1 st2 -> adds_only P st2 st3 -> adds_only P st1 st3.
Proof.
  intros (a & Ha & HPa) (b & Hb & HPb). exists (a ++ b).
  rewrite Hb, Ha, app_assoc. split; [reflexivity |].
  apply Forall_app. now split.
Qed.

Lemma properties_appended p init s st :
  Sections (document st) = init ++ [s] ->
  properties (appended p init s st) = properties st ++ [p].
Proof.
  intros Hs. unfold properties. rewrite Hs. simpl.
  rewrite !map_app, !concat_app. simpl. rewrite !app_nil_r.
  now rewrite app_assoc.
Qed.

Lemma parseComment_adds path c st u st' :
  parseCommentOntoDocument path c st = Done (u, st') ->
  adds_only (fun p => pDefault p = "undefined") st st'.
Proof.
  unfold parseCommentOntoDocument.
  destruct (Tags_GetBool (cTags c) TagSection).
  { intros [Hs _]%openSection_done. apply adds_only_refl.
    unfold properties. rewrite Hs, map_app, concat_app. simpl.
    now rewrite !app_nil_r. }
  destruct (Tags_GetBool (cTags c) TagProperty).
  2: { intros H; inversion H; subst. now apply adds_only_refl. }
  intros H. inv_bind H as inferred st0 Hinfer.
  destruct inferred as [parsedNode comment]. simpl in H.
  apply lift_done in Hinfer as [Hinfer ->].
  assert (Happend : forall name,
    appendProperty (syntheticProperty name parsedNode comment) st
    = Done (u, st') ->
    adds_only (fun p => pDefault p = "undefined") st st').
  { intros name (init & s & Hs & ->)%appendProperty_done.
    exists [syntheticProperty name parsedNode comment].
    split; [now apply properties_appended |].
    constructor; [reflexivity | constructor]. }
  destruct (String.eqb (Tags_GetString (cTags comment) TagProperty) "").
  - destruct (String.eqb (Path_String (nPath parsedNode)) "").
    + apply logPrintln_done in H as [Hdoc _]. apply adds_only_refl.
      unfold properties. now rewrite Hdoc.
    + now apply (Happend _ H).
  - now apply (Happend _ H).
Qed.

Lemma parseComments_adds path cs : forall st u st',
  parseCommentsOntoDocument path cs st = Done (u, st') ->
  adds_only (fun p => pDefault p = "undefined") st st'.
Proof.
  induction cs as [|c rest IH]; intros st u st' H.
  - inversion H; subst. now apply adds_only_refl.
  - simpl in H. inv_bind H as u0 st0 Hfirst.
    eapply adds_only_trans; [eapply parseComment_adds | eapply IH]; eauto.
Qed.

(** C7 (amended). For a property emitted for an end node, an explicit
    non-empty [docs:type] value is the type and an explicit non-empty
    [docs:default] value is the default, whatever the node; otherwise the
    type follows the short YAML tag of the raw node (bool, string, number
    for int and float, timestamp, array, object, and unknown for any other
    tag or a missing raw node) and the default is the decoded value of the
    raw node re-encoded with an indent of 2 and trimmed.  A synthetic
    property gets its type by the same rule, from the value node of the
    single-key mapping its code block parses as, or with no raw node when
    there is no code block; but its default is the literal [undefined]:
    every property that forwarded comments add to the document has that
    default, whatever [docs:default] says. *)
Theorem type_and_default_inference (node : Node) (comment : Comment) :
  (Tags_GetString (cTags comment) TagType <> "" ->
   getTypeOf node comment = Tags_GetString (cTags comment) TagType)
  /\ (Tags_GetString (cTags comment) TagType = "" ->
      nRawNode node = None -> getTypeOf node comment = "unknown")
  /\ (Tags_GetString (cTags comment) TagType = "" ->
      forall raw, nRawNode node = Some raw ->
        (Node_ShortTag raw = "!!bool" -> getTypeOf node comment = "bool")
        /\ (Node_ShortTag raw = "!!str" -> getTypeOf node comment = "string")
        /\ (Node_ShortTag raw = "!!int" -> getTypeOf node comment = "number")
        /\ (Node_ShortTag raw = "!!float" ->
            getTypeOf node comment = "number")
        /\ (Node_ShortTag raw = "!!timestamp" ->
            getTypeOf node comment = "timestamp")
        /\ (Node_ShortTag raw = "!!seq" -> getTypeOf node comment = "array")
        /\ (Node_ShortTag raw = "!!map" -> getTypeOf node comment = "object")
        /\ (~ In (Node_ShortTag raw)
                 ["!!bool"; "!!str"; "!!int"; "!!float"; "!!timestamp";
                  "!!seq"; "!!map"] ->
            getTypeOf node comment = "unknown"))
  /\ (Tags_GetString (cTags comment) TagDefault <> "" ->
      getDefaultValue node comment
      = Done (Tags_GetString (cTags comment) TagDefault))
  /\ (Tags_GetString (cTags comment) TagDefault = "" ->
      forall raw, nRawNode node = Some raw ->
        getDefaultValue node comment
        = Done (strings_TrimSpace
                  (Encoder_Encode 2 (Node_Encode (Node_Decode raw)))))
  /\ (forall st init s default,
        Tags_GetBool (cTags comment) TagIgnore = false ->
        isEndNode node comment = Done true ->
        getDefaultValue node comment = Done default ->
        Sections (document st) = init ++ [s] ->
        visitBody node comment st
        = Done ((true, None),
                appended {| pName := Path_String (nPath node);
                            pDescription := comment;
                            pType := getTypeOf node comment;
                            pDefault := default |} init s st))
  /\ (forall path st init s before sec after keyNode valueNode,
        Tags_GetBool (cTags comment) TagSection = false ->
        Tags_GetBool (cTags comment) TagProperty = true ->
        Sections (document st) = init ++ [s] ->
        cSections comment = before ++ sec :: after ->
        csType sec = CommentTypeCode ->
        Forall is_text after ->
        single_key_mapping (yaml_Unmarshal (CommentSection_String sec))
          keyNode valueNode ->
        let parsed :=
          {| nPath := Path_WithProperty path (Value (mem keyNode));
             nHeadComments := [comment];
             nFootComment := [];
             nRawNode := Some valueNode |} in
        let described :=
          {| cTags := cTags comment; cSections := before ++ after |} in
        let name :=
          if String.eqb (Tags_GetString (cTags comment) TagProperty) ""
          then Path_String (nPath parsed)
          else Tags_GetString (cTags comment) TagProperty in
        name <> "" ->
        parseCommentOntoDocument path comment st
        = Done (tt, appended {| pName := name;
                                pDescription := described;
                                pType := getTypeOf parsed described;
                                pDefault := "undefined" |} init s st))
  /\ (forall path st init s,
        Tags_GetBool (cTags comment) TagSection = false ->
        Tags_GetBool (cTags comment) TagProperty = true ->
        Sections (document st) = init ++ [s] ->
        Forall is_text (cSections comment)
        \/ (exists before sec after,
              cSections comment = before ++ sec :: after
              /\ csType sec = CommentTypeCode /\ Forall is_text after
              /\ forall keyNode valueNode,
                   ~ single_key_mapping
                       (yaml_Unmarshal (CommentSection_String sec))
                       keyNode valueNode) ->
        Tags_GetString (cTags comment) TagProperty <> "" ->
        parseCommentOntoDocument path comment st
        = Done (tt, appended
                      {| pName := Tags_GetString (cTags comment) TagProperty;
                         pDescription := comment;
                         pType := getTypeOf (unparsedNode comment) comment;
                         pDefault := "undefined" |} init s st))
  /\ (forall path comments st u st',
        parseCommentsOntoDocument path comments st = Done (u, st') ->
        adds_only (fun p => pDefault p = "undefined") st st').
Proof.
  split; [| split; [| split; [| split; [| split; [| split;
    [| split; [| split]]]]]]].
  - intros Hexplicit. unfold getTypeOf.
    now destruct (String.eqb_spec (Tags_GetString (cTags comment) TagType) "").
  - intros Hexplicit Hraw. unfold getTypeOf. now rewrite Hexplicit, Hraw.
  - intros Hexplicit raw Hraw. unfold getTypeOf. rewrite Hexplicit, Hraw.
    simpl. repeat split; try (intros ->; reflexivity).
    intros Hother. simpl in Hother.
    repeat match goal with
           | |- context [String.eqb ?a ?b] =>
               destruct (String.eqb_spec a b);
                 [exfalso; apply Hother; intuition congruence |]
           end.
    reflexivity.
  - intros Hexplicit. unfold getDefaultValue.
    now destruct
      (String.eqb_spec (Tags_GetString (cTags comment) TagDefault) "").
  - intros Hexplicit raw Hraw. unfold getDefaultValue.
    now rewrite Hexplicit, Hraw.
  - intros st init s default Hignore Hend Hdefault Hsections.
    unfold visitBody. rewrite Hignore. unfold bind, lift.
    rewrite Hend. simpl. rewrite Hdefault.
    now rewrite (appendProperty_last _ _ _ _ Hsections).
  - intros path st init s before sec after keyNode valueNode Hsection
      Hproperty Hsections Hs Hsec Hafter Hsingle parsed described name Hname.
    destruct (parseComment_named path comment st init s parsed described
                Hsection Hproperty Hsections
                (inferFromCode_parsed _ _ _ _ _ _ _ Hs Hsec Hafter Hsingle)
                eq_refl) as (Hexplicit & Hinferred & _).
    subst name.
    destruct (String.eqb_spec (Tags_GetString (cTags comment) TagProperty) "")
      as [Hempty | Hgiven].
    + now apply Hinferred.
    + now apply Hexplicit.
  - intros path st init s Hsection Hproperty Hsections Hnone Hgiven.
    apply (parseComment_named path comment st init s (unparsedNode comment)
             comment Hsection Hproperty Hsections
             (inferFromCode_unparsed _ _ Hnone) eq_refl).
    exact Hgiven.
  - intros path comments st u st'. apply parseComments_adds.
Qed.

End Claims.

(** ** Evaluation on the sample world *)

Import Sample.

Lemma sample_no_section (s : string) (c : Comment) :
  In c (sample_ParseComment s) -> no_section c.
Proof.
  unfold sample_ParseComment.
  repeat match goal with
         | |- context [String.eqb ?a ?b] => destruct (String.eqb a b)
         end;
    simpl; intros H; repeat destruct H as [<- | H]; try destruct H;
    reflexivity.
Qed.

Lemma sample_NoSectionDirectives : NoSectionDirectives.
Proof. intros p c [H | H]; exact (sample_no_section _ _ H). Qed.

Lemma build_sections_witness :
  wf_tree 4 0 = true /\ 4 <= 4 /\ NoSectionDirectives
  /\ exists st,
       build 4 0 = Done (None, st)
       /\ Sections (document st)
          = [{| sName := ""; sDescription := "";
                sProperties := discovered st |}].
Proof.
  split; [reflexivity |]. split; [lia |].
  split; [exact sample_NoSectionDirectives |].
  destruct (proj2 (proj2 (proj2 (@build_sections sample_world))) 4 0 4
              eq_refl (le_n 4)) as (st & Hbuild).
  exists st. split; [exact Hbuild |].
  exact (proj2 (proj1 (proj2 (@build_sections sample_world)) 4 0 None st
                  Hbuild)
           sample_NoSectionDirectives).
Defined.

Lemma sample_cycle_visit (path : Path) (raw : ptr) (st : Assembly) :
  raw = 31 \/ raw = 32 ->
  visit (cycleNode path raw) st = Done ((false, None), st).
Proof. intros [-> | ->]; reflexivity. Qed.

Lemma sample_cycle_children (path : Path) :
  childNodes (cycleNode path 31) (mem 31)
  = [cycleNode (Path_WithIndex path 0) 32]
  /\ childNodes (cycleNode path 32) (mem 32) = [cycleNode path 31].
Proof. split; reflexivity. Qed.

Lemma sample_cycle_diverges (fuel : nat) : forall path raw st,
  raw = 31 \/ raw = 32 -> walk fuel visit (cycleNode path raw) st = OutOfFuel.
Proof.
  induction fuel as [|fuel IH]; intros path raw st Hraw; [reflexivity |].
  rewrite (walk_unfold fuel visit _ st st raw (sample_cycle_visit _ _ _ Hraw)
             eq_refl).
  destruct (sample_cycle_children path) as [H31 H32].
  destruct Hraw as [-> | ->]; [rewrite H31 | rewrite H32];
    cbn [walkNodes]; unfold bind; now rewrite IH by auto.
Qed.

Lemma sample_cycle_build (fuel : nat) : build fuel 30 = OutOfFuel.
Proof.
  destruct fuel as [|fuel]; [reflexivity |].
  unfold build.
  assert (visit (rootNode 30) emptyAssembly
          = Done ((false, None), emptyAssembly)) as Hvisit
    by (vm_compute; reflexivity).
  rewrite (walk_unfold fuel visit (rootNode 30) emptyAssembly emptyAssembly 30
             Hvisit eq_refl).
  change (childNodes (rootNode 30) (mem 30)) with [cycleNode [] 31].
  cbn [walkNodes]. unfold bind. now rewrite sample_cycle_diverges by auto.
Qed.

(** The tree [&a [*a]] has an alias cycle, and [Load] reports no error for
    it: the walk runs out of every allowance of nested calls. *)
Lemma alias_cycle_not_reported :
  (forall fuel, Load fuel (inr 30) = OutOfFuel)
  /\ ~ (exists fuel doc e, Load fuel (inr 30) = Done (doc, Some e)).
Proof.
  assert (forall fuel, Load fuel (inr 30) = OutOfFuel) as Hload.
  { intros fuel. unfold Load. now rewrite sample_cycle_build. }
  split; [exact Hload |].
  intros (fuel & doc & e & H). rewrite Hload in H. discriminate H.
Qed.

Lemma sample_alias_cycle : alias_cycle on_cycle.
Proof.
  intros [path head foot raw] (Hhead & Hfoot & Hraw).
  simpl in Hhead, Hfoot, Hraw. subst head foot.
  destruct Hraw as [-> | ->].
  - split.
    + intros st stop err st' Hvisit.
      change (visit (cycleNode path 31) st = Done (stop, err, st')) in Hvisit.
      rewrite sample_cycle_visit in Hvisit by auto. now inversion Hvisit.
    + exists (cycleNode (Path_WithIndex path 0) 32). split.
      * exists 31. split; [reflexivity | now left].
      * repeat split; auto.
  - split.
    + intros st stop err st' Hvisit.
      change (visit (cycleNode path 32) st = Done (stop, err, st')) in Hvisit.
      rewrite sample_cycle_visit in Hvisit by auto. now inversion Hvisit.
    + exists (cycleNode path 31). split.
      * exists 32. split; [reflexivity | now left].
      * repeat split; auto.
Qed.

Lemma walk_has_no_cycle_check_witness :
  alias_cycle on_cycle /\ on_cycle (cycleNode [] 31)
  /\ forall fuel st r, walk fuel visit (cycleNode [] 31) st <> Done r.
Proof.
  split; [exact sample_alias_cycle |].
  assert (on_cycle (cycleNode [] 31)) as Hon by (repeat split; auto).
  split; [exact Hon |].
  intros fuel st r.
  exact (proj2 (proj2 walk_has_no_cycle_check) on_cycle sample_alias_cycle
           fuel (cycleNode [] 31) st r Hon).
Defined.

(** With two code blocks the property is named after the second one, and
    it is the second one that leaves the description. *)
Lemma first_code_not_used :
  summary (parseCommentsOntoDocument [] [twoBlocks] emptyAssembly)
  = [("second", "string", "undefined")]
  /\ summary (parseCommentsOntoDocument [] [twoBlocks] emptyAssembly)
     <> [("first", "number", "undefined")]
  /\ descriptions (parseCommentsOntoDocument [] [twoBlocks] emptyAssembly)
     = [[code "first: 1"]]
  /\ descriptions (parseCommentsOntoDocument [] [twoBlocks] emptyAssembly)
     <> [[code "second: two"]].
Proof. repeat split; (reflexivity || discriminate). Qed.

Lemma property_inference_uses_last_code_witness :
  cSections twoBlocks = [code "first: 1"] ++ code "second: two" :: []
  /\ csType (code "second: two") = CommentTypeCode
  /\ Forall is_text []
  /\ inferFromCode [] twoBlocks
     = Done ({| nPath := [stringPathComponent "second"];
                nHeadComments := [twoBlocks];
                nFootComment := [];
                nRawNode := Some 26 |},
             {| cTags := cTags twoBlocks;
                cSections := [code "first: 1"] |}).
Proof.
  split; [reflexivity |]. split; [reflexivity |]. split; [constructor |].
  exact (proj1 (property_inference_uses_last_code [] twoBlocks
                  [code "first: 1"] [] (code "second: two")
                  eq_refl eq_refl ltac:(constructor))).
Defined.

(** The code block of the comment parses as the single-key mapping
    [first: 1], yet the property is named by the directive value. *)
Lemma explicit_name_overrides_code_key :
  option_map (fun n => Path_String (nPath n))
    (singleKeyMapping [] (unparsedNode namedBlock)
       (yaml_Unmarshal (CommentSection_String (code "first: 1"))))
  = Some "first"
  /\ summary (parseCommentsOntoDocument [] [namedBlock] emptyAssembly)
     = [("explicit.name", "number", "undefined")]
  /\ summary (parseCommentsOntoDocument [] [namedBlock] emptyAssembly)
     <> [("first", "number", "undefined")].
Proof. repeat split; (reflexivity || discriminate). Qed.

Lemma synthetic_property_name_witness :
  Tags_GetBool (cTags inferredBlock) TagSection = false
  /\ Tags_GetBool (cTags inferredBlock) TagProperty = true
  /\ Sections (document emptyAssembly) = [] ++ [zeroSection]
  /\ cSections inferredBlock
     = [text "the first value"] ++ code "first: 1" :: []
  /\ csType (code "first: 1") = CommentTypeCode
  /\ Forall is_text []
  /\ single_key_mapping
       (yaml_Unmarshal (CommentSection_String (code "first: 1"))) 21 22
  /\ Tags_GetString (cTags inferredBlock) TagProperty = ""
  /\ Path_String
       (Path_WithProperty [stringPathComponent "config"] (Value (mem 21)))
     <> ""
  /\ parseCommentOntoDocument [stringPathComponent "config"] inferredBlock
       emptyAssembly
     = Done (tt, appended
                   {| pName := "config.first";
                      pDescription :=
                        {| cTags := cTags inferredBlock;
                           cSections := [text "the first value"] |};
                      pType := "number";
                      pDefault := "undefined" |}
                   [] zeroSection emptyAssembly).
Proof.
  assert (single_key_mapping
            (yaml_Unmarshal (CommentSection_String (code "first: 1"))) 21 22)
    as Hsingle.
  { exists 20, []. repeat split; reflexivity. }
  assert (Path_String
            (Path_WithProperty [stringPathComponent "config"]
               (Value (mem 21))) <> "") as Hname by discriminate.
  split; [reflexivity |]. split; [reflexivity |]. split; [reflexivity |].
  split; [reflexivity |]. split; [reflexivity |]. split; [constructor |].
  split; [exact Hsingle |]. split; [reflexivity |]. split; [exact Hname |].
  destruct (proj1 (synthetic_property_name [stringPathComponent "config"]
                     inferredBlock emptyAssembly [] zeroSection
                     eq_refl eq_refl eq_refl)
              [text "the first value"] (code "first: 1") [] 21 22
              eq_refl eq_refl ltac:(constructor) Hsingle)
    as (_ & Hinferred & _).
  exact (Hinferred eq_refl Hname).
Defined.

(** A synthetic property whose comment gives [docs:default=42] still has
    the default [undefined]. *)
Lemma synthetic_default_ignores_directive :
  Tags_GetString (cTags namedDefault) TagDefault = "42"
  /\ summary (parseCommentsOntoDocument [] [namedDefault] emptyAssembly)
     = [("extra", "unknown", "undefined")]
  /\ summary (parseCommentsOntoDocument [] [namedDefault] emptyAssembly)
     <> [("extra", "unknown", "42")].
Proof. repeat split; (reflexivity || discriminate). Qed.

Lemma type_and_default_inference_witness :
  Tags_GetString (cTags typedComment) TagType <> ""
  /\ getTypeOf replicasNode typedComment = "integer"
  /\ Tags_GetString (cTags typedComment) TagDefault = ""
  /\ nRawNode replicasNode = Some 3
  /\ getDefaultValue replicasNode typedComment = Done "1"
  /\ Tags_GetBool (cTags namedDefault) TagSection = false
  /\ Tags_GetBool (cTags namedDefault) TagProperty = true
  /\ Sections (document emptyAssembly) = [] ++ [zeroSection]
  /\ Forall is_text (cSections namedDefault)
  /\ Tags_GetString (cTags namedDefault) TagProperty <> ""
  /\ Tags_GetString (cTags namedDefault) TagDefault = "42"
  /\ parseCommentOntoDocument [] namedDefault emptyAssembly
     = Done (tt, appended {| pName := "extra";
                             pDescription := namedDefault;
                             pType := "unknown";
                             pDefault := "undefined" |}
                   [] zeroSection emptyAssembly).
Proof.
  pose proof (type_and_default_inference replicasNode typedComment)
    as (Htype & _ & _ & _ & Hdefault & _).
  pose proof (type_and_default_inference replicasNode namedDefault)
    as (_ & _ & _ & _ & _ & _ & _ & Hsynthetic & _).
  assert (Forall is_text (cSections namedDefault)) as Htext
    by (repeat constructor).
  assert (Tags_GetString (cTags namedDefault) TagProperty <> "") as Hnamed
    by discriminate.
  split; [discriminate |]. split; [apply Htype; discriminate |].
  split; [reflexivity |]. split; [reflexivity |].
  split; [exact (Hdefault eq_refl 3 eq_refl) |].
  split; [reflexivity |]. split; [reflexivity |]. split; [reflexivity |].
  split; [exact Htext |]. split; [exact Hnamed |]. split; [reflexivity |].
  exact (Hsynthetic [] emptyAssembly [] zeroSection eq_refl eq_refl eq_refl
           (or_introl Htext) Hnamed).
Defined.

Lemma isEndNode_priority_witness :
  nRawNode portsNode = Some 5
  /\ Kind (mem 5) <> DocumentNode
  /\ Tags_GetBool (cTags (propertyComment "" [])) TagProperty = true
  /\ isEndNode portsNode (propertyComment "" []) = Done true.
Proof.
  split; [reflexivity |]. split; [discriminate |]. split; [reflexivity |].
  destruct (isEndNode_priority portsNode (propertyComment "" []) 5 eq_refl)
    as (_ & _ & Htagged & _).
  apply Htagged; [discriminate | reflexivity].
Defined.

Lemma ignore_skips_subtree_witness :
  Comments_Pop (nHeadComments secretNode)
  = ({| cTags := directive TagIgnore ""; cSections := [] |}, true, [])
  /\ Tags_GetBool (directive TagIgnore "") TagIgnore = true
  /\ walk 5 visit secretNode emptyAssembly = Done (None, emptyAssembly).
Proof.
  split; [reflexivity |]. split; [reflexivity |].
  rewrite (proj1 (ignore_skips_subtree secretNode
                    {| cTags := directive TagIgnore ""; cSections := [] |}
                    true [] 4 emptyAssembly eq_refl eq_refl)).
  reflexivity.
Defined.

Lemma sequence_children_comments_witness :
  nRawNode portsNode = Some 5
  /\ visit portsNode emptyAssembly = Done ((false, None), emptyAssembly)
  /\ Kind (mem 5) = SequenceNode
  /\ walk 3 visit portsNode emptyAssembly
     = walkNodes (walk 2 visit)
         [{| nPath := [stringPathComponent "ports"; indexPathComponent 0];
             nHeadComments := ParseComment "each port";
             nFootComment := [];
             nRawNode := Some 8 |};
          {| nPath := [stringPathComponent "ports"; indexPathComponent 1];
             nHeadComments := ParseComment "each port";
             nFootComment := [];
             nRawNode := Some 9 |}] emptyAssembly.
Proof.
  split; [reflexivity |]. split; [reflexivity |]. split; [reflexivity |].
  exact (proj1 (sequence_children_comments 2 visit portsNode emptyAssembly
                  emptyAssembly 5 eq_refl eq_refl) eq_refl).
Defined.

(** * Further properties *)

(** ** Forwarded comments *)

Section CommentFacts.

Context {W : World}.

(** X6. Processing a sequence of forwarded comments is processing its
    first part and then its second part on the resulting assembly. *)
Theorem parseComments_app (path : Path) (a b : Comments) (st : Assembly) :
  parseCommentsOntoDocument path (a ++ b) st
  = (let* _ := parseCommentsOntoDocument path a in
     parseCommentsOntoDocument path b) st.
Proof.
  revert st. induction a as [|c rest IH]; intros st; [reflexivity |].
  simpl. unfold bind.
  destruct (parseCommentOntoDocument path c st) as [[u st1] | |];
    [now rewrite IH | reflexivity..].
Qed.

Lemma parseComment_plain path c st :
  plain c -> parseCommentOntoDocument path c st = Done (tt, st).
Proof.
  intros [Hsection Hproperty]. unfold parseCommentOntoDocument.
  now rewrite Hsection, Hproperty.
Qed.

(** X4. Forwarded comments that carry neither [docs:section] nor
    [docs:property] change nothing: the call returns with the document,
    the log and the properties as they were, whatever else the comments
    hold. *)
Theorem plain_comments_ignored (path : Path) (cs : Comments) (st : Assembly) :
  Forall plain cs -> parseCommentsOntoDocument path cs st = Done (tt, st).
Proof.
  induction 1 as [|c rest Hc Hrest IH]; [reflexivity |].
  simpl. unfold bind. now rewrite (parseComment_plain _ _ _ Hc).
Qed.

Lemma assembly_eta (st : Assembly) :
  {| document := {| Sections := Sections (document st) |};
     diagnostics := diagnostics st;
     discovered := discovered st |} = st.
Proof. now destruct st as [[secs] log ps]. Qed.

(** X5. The [docs:section] directive is tested first: forwarded comments
    that all carry it open one section each, in order, named by the value
    of the directive and described by the comment text, and emit no
    property, also when they carry [docs:property] as well. *)
Theorem section_comments_open_sections (path : Path) (cs : Comments)
  (st : Assembly) :
  Forall (fun c => Tags_GetBool (cTags c) TagSection = true) cs ->
  parseCommentsOntoDocument path cs st
  = Done (tt, {| document :=
                   {| Sections := Sections (document st) ++ map sectionOf cs |};
                 diagnostics := diagnostics st;
                 discovered := discovered st |}).
Proof.
  intros Hall. revert st.
  induction Hall as [|c rest Hc Hrest IH]; intros st.
  - simpl. now rewrite app_nil_r, assembly_eta.
  - simpl. unfold bind, parseCommentOntoDocument. rewrite Hc.
    unfold openSection. rewrite IH. simpl.
    now rewrite <- app_assoc.
Qed.

(** X7. The inference from the code block never touches the rest of the
    comment: the description it returns has the tags of the comment and
    all its text segments, in order, and differs from the comment by at
    most one code segment taken out. *)
Theorem inference_keeps_prose (path : Path) (c comment : Comment)
  (parsedNode : Node) :
  inferFromCode path c = Done (parsedNode, comment) ->
  cTags comment = cTags c
  /\ List.filter isText (cSections comment)
     = List.filter isText (cSections c)
  /\ (cSections comment = cSections c
      \/ exists before sec after,
           cSections c = before ++ sec :: after
           /\ csType sec = CommentTypeCode
           /\ cSections comment = before ++ after).
Proof.
  intros Hinfer.
  destruct (sections_split (cSections c))
    as [Hall | (before & sec & after & Hs & Hsec & Hafter)].
  - rewrite inferFromCode_text in Hinfer by exact Hall.
    inversion Hinfer; subst. auto.
  - rewrite (inferFromCode_last _ _ _ _ _ Hs Hsec Hafter) in Hinfer.
    destruct (singleKeyMapping _ _ _); inversion Hinfer; subst;
      [| now auto].
    simpl. split; [reflexivity |].
    split; [| right; exists before, sec, after; auto].
    rewrite Hs, !List.filter_app. simpl.
    assert (isText sec = false) as -> by (unfold isText; now rewrite Hsec).
    reflexivity.
Qed.

(** X11. A [docs:section] directive in the directive comment of a node
    takes effect only when the node is not an end node: then the section is
    opened before the children are visited; on an end node the comment
    becomes the description of the property, which goes to the section
    that was last before, and no section is opened. *)
Theorem own_section_directive (n : Node) (c : Comment) (st : Assembly)
  (init : list DocSection) (s : DocSection) :
  Tags_GetBool (cTags c) TagIgnore = false ->
  Tags_GetBool (cTags c) TagSection = true ->
  Sections (document st) = init ++ [s] ->
  (isEndNode n c = Done false ->
   visitBody n c st
   = Done ((false, None),
           {| document := {| Sections := init ++ [s; sectionOf c] |};
              diagnostics := diagnostics st;
              discovered := discovered st |}))
  /\ (forall default,
        isEndNode n c = Done true ->
        getDefaultValue n c = Done default ->
        visitBody n c st
        = Done ((true, None),
                appended {| pName := Path_String (nPath n);
                            pDescription := c;
                            pType := getTypeOf n c;
                            pDefault := default |} init s st)).
Proof.
  intros Hignore Hsection Hsections. split.
  - intros Hend. unfold visitBody. rewrite Hignore. unfold bind, lift.
    rewrite Hend. simpl. unfold bind, parseCommentOntoDocument.
    rewrite Hsection. unfold openSection. simpl.
    now rewrite Hsections, <- app_assoc.
  - intros default Hend Hdefault. unfold visitBody. rewrite Hignore.
    unfold bind, lift. rewrite Hend. simpl. rewrite Hdefault.
    now rewrite (appendProperty_last _ _ _ _ Hsections).
Qed.

(** X3. [Load] returns either no document and the error of opening or
    decoding the file, or a document and no error: once the file is
    decoded nothing makes it fail. *)
Theorem Load_document_or_error (fuel : nat) (decoded : error + ptr)
  (doc : option Document) (err : option error) :
  Done (doc, err) = Load fuel decoded ->
  (exists e, decoded = inl e /\ doc = None /\ err = Some e)
  \/ (exists root d, decoded = inr root /\ doc = Some d /\ err = None).
Proof.
  intros H. symmetry in H. destruct decoded as [e | root]; simpl in H.
  - inversion H; subst. left. eauto.
  - destruct (build fuel root) as [[err' st] | |] eqn:Hbuild;
      inversion H; subst.
    right. exists root, (document st). repeat split.
    exact (walk_visit_no_error _ _ _ _ _ Hbuild).
Qed.

(** X10. When the callback does not stop at a document node, every child
    is walked under the unextended path of the document node, with the
    comments parsed from the child's own texts; at an alias node the
    target is walked under the path of the alias, with the comments parsed
    from the texts of the alias node; below a scalar node nothing is
    walked. *)
Theorem document_alias_children (fuel : nat)
  (fn : Node -> M (bool * option error)) (root : Node) (st st1 : Assembly)
  (p : ptr) :
  nRawNode root = Some p ->
  fn root st = Done ((false, None), st1) ->
  (Kind (mem p) = DocumentNode ->
   walk (S fuel) fn root st
   = walkNodes (walk fuel fn)
       (map (fun child =>
               {| nPath := nPath root;
                  nHeadComments := ParseComment (HeadComment (mem child));
                  nFootComment := ParseComment (FootComment (mem child));
                  nRawNode := Some child |})
            (Content (mem p))) st1)
  /\ (Kind (mem p) = AliasNode ->
      walk (S fuel) fn root st
      = walk fuel fn
          {| nPath := nPath root;
             nHeadComments := ParseComment (HeadComment (mem p));
             nFootComment := ParseComment (FootComment (mem p));
             nRawNode := Alias (mem p) |} st1)
  /\ (Kind (mem p) = ScalarNode \/ Kind (mem p) = ZeroKind ->
      walk (S fuel) fn root st = Done (None, st1)).
Proof.
  intros Hraw Hfn. rewrite (walk_unfold _ _ _ _ _ _ Hfn Hraw).
  repeat split.
  - intros Hkind. rewrite bind_finish by congruence.
    unfold childNodes. now rewrite Hkind.
  - intros Hkind. rewrite bind_finish by congruence.
    unfold childNodes. rewrite Hkind. simpl. unfold bind, aliasChild.
    destruct (walk fuel fn _ st1) as [[[e |] st2] | |]; reflexivity.
  - intros [Hkind | Hkind]; unfold childNodes, finish, bind;
      now rewrite Hkind.
Qed.

End CommentFacts.

(** ** The walk as a traversal *)

Section TraversalFacts.

Context {W : World}.

Lemma section_extends_refl s : section_extends s s.
Proof. repeat split; reflexivity. Qed.

Lemma grows_refl st : grows st st.
Proof.
  repeat split; try reflexivity.
  intros i s Hs. exists s. split; [exact Hs | apply section_extends_refl].
Qed.

Lemma grows_trans st1 st2 st3 : grows st1 st2 -> grows st2 st3 -> grows st1 st3.
Proof.
  intros (Hs12 & Hp12 & Hd12) (Hs23 & Hp23 & Hd23).
  repeat split; [| etrans; eauto | etrans; eauto].
  intros i s Hs.
  destruct (Hs12 i s Hs) as (s2 & Hs2 & Hn2 & Hdesc2 & Hprops2).
  destruct (Hs23 i s2 Hs2) as (s3 & Hs3 & Hn3 & Hdesc3 & Hprops3).
  exists s3. split; [exact Hs3 |].
  repeat split; [congruence | congruence | etrans; eauto].
Qed.

Lemma openSection_grows name description st st' :
  openSection name description st = Done (tt, st') -> grows st st'.
Proof.
  intros H. inversion H; subst. repeat split; simpl; try reflexivity.
  intros i s Hs. exists s.
  split; [now apply lookup_app_l_Some | apply section_extends_refl].
Qed.

Lemma appendProperty_grows p st st' :
  appendProperty p st = Done (tt, st') -> grows st st'.
Proof.
  intros (init & s & Hs & ->)%appendProperty_done.
  repeat split; simpl; [| now exists [p] | reflexivity].
  intros i x Hx. rewrite Hs in Hx.
  apply lookup_app_Some in Hx as [Hx | [Hle Hx]].
  - exists x. split; [now apply lookup_app_l_Some |].
    apply section_extends_refl.
  - destruct (i - length init) as [|k] eqn:Hk; simpl in Hx; [| discriminate].
    inversion Hx; subst x. exists (addProperty p s). split.
    + replace i with (length init + 0) by lia.
      now rewrite lookup_app_r, Nat.add_sub' by lia.
    + repeat split. now exists [p].
Qed.

Lemma logPrintln_grows msg st st' :
  logPrintln msg st = Done (tt, st') -> grows st st'.
Proof.
  intros H. inversion H; subst. repeat split; simpl;
    [| reflexivity | now exists [msg]].
  intros i s Hs. exists s. split; [exact Hs | apply section_extends_refl].
Qed.

Lemma stable_grows st0 : stable True (grows st0).
Proof.
  split.
  - intros name description st st' _ Hst H.
    eapply grows_trans; [exact Hst | eapply openSection_grows; eauto].
  - intros p st st' Hst H.
    eapply grows_trans; [exact Hst | eapply appendProperty_grows; eauto].
  - intros msg st st' Hst H.
    eapply grows_trans; [exact Hst | eapply logPrintln_grows; eauto].
Qed.

(** X8. The walk of [Load] only ever adds: whatever the tree and from
    whatever assembly it starts, every section present before is present
    after at the same index, with its name and description unchanged and
    its properties as a prefix of the new ones, and the properties
    discovered and the diagnostics logged before are prefixes of those
    after; the same holds for a run of forwarded comments. *)
Theorem walk_only_grows :
  (forall fuel n st r st',
     walk fuel visit n st = Done (r, st') -> grows st st')
  /\ (forall path cs st u st',
        parseCommentsOntoDocument path cs st = Done (u, st') -> grows st st').
Proof.
  split.
  - intros fuel n st r st' H.
    apply (walk_inv True (grows st) (stable_grows st) (or_introl I)
             fuel n st r st'); [now left | apply grows_refl | exact H].
  - intros path cs st u st' H.
    apply (parseComments_inv True (grows st) path cs st u st'
             (stable_grows st) (or_introl I) (grows_refl st) H).
Qed.

(** *** Pre-order *)

Lemma walkNodes_fold (I : Assembly -> Prop) rec
  (step : Node -> Assembly -> Assembly) (listing : Node -> list Node) nodes :
  (forall n st, In n nodes -> I st ->
     rec n st = Done (None, fold_left (fun st n => step n st) (listing n) st)
     /\ I (fold_left (fun st n => step n st) (listing n) st)) ->
  forall st, I st ->
    walkNodes rec nodes st
    = Done (None,
            fold_left (fun st n => step n st) (flat_map listing nodes) st)
    /\ I (fold_left (fun st n => step n st) (flat_map listing nodes) st).
Proof.
  induction nodes as [|n rest IH]; intros Hrec st Hst; [now split |].
  destruct (Hrec n st (or_introl eq_refl) Hst) as [Hn Hst1].
  simpl. rewrite (bind_step _ _ _ _ _ Hn), fold_left_app.
  apply IH; [| exact Hst1]. intros; apply Hrec; auto. now right.
Qed.

(** For a callback whose decision to stop depends on the node alone, the
    walk of a finite tree calls it on the nodes of the pre-order listing,
    in order. *)
Lemma walk_preorder_fold (fn : Node -> M (bool * option error))
  (stopAt : Node -> bool) (step : Node -> Assembly -> Assembly)
  (I : Assembly -> Prop) :
  (forall n st p, nRawNode n = Some p -> I st ->
     fn n st = Done ((stopAt n, None), step n st) /\ I (step n st)) ->
  forall fuel depth p n st,
    depth <= fuel -> wf_tree depth p = true -> nRawNode n = Some p -> I st ->
    walk fuel fn n st
    = Done (None,
            fold_left (fun st n => step n st) (preorder stopAt fuel n) st)
    /\ I (fold_left (fun st n => step n st) (preorder stopAt fuel n) st).
Proof.
  intros Hfn. induction fuel as [|fuel IH]; intros depth p n st Hle Hwf Hraw Hst.
  { destruct depth; [discriminate Hwf | lia]. }
  destruct depth as [|depth]; [discriminate Hwf |].
  destruct (Hfn n st p Hraw Hst) as [Hcall Hst1].
  simpl preorder. simpl fold_left.
  destruct (stopAt n) eqn:Hstop.
  { split; [| exact Hst1].
    apply (walk_stop _ _ _ _ _ _ _ Hcall). now left. }
  rewrite Hraw, (walk_unfold _ _ _ _ _ _ Hcall Hraw).
  destruct (walkNodes_fold I (walk fuel fn) step (preorder stopAt fuel)
              (childNodes n (mem p))) with (st := step n st)
    as [Hnodes Hst2]; [| exact Hst1 |].
  { intros n' s Hin Hs.
    destruct (child_wf _ _ _ _ Hwf Hin) as (c & Hc & Hwfc).
    apply (IH depth c); auto. lia. }
  split; [| exact Hst2].
  rewrite (bind_step _ _ _ _ _ Hnodes). eapply finish_wf; eauto.
Qed.

(** X1. [walk] is a pre-order traversal cut at the nodes the callback
    stops at: for a callback that always returns, without error, and whose
    decision to stop depends on the node only, the walk of a finite
    well-formed tree calls it exactly on the nodes of the pre-order
    listing, once each and in that order, and returns no error. *)
Theorem walk_preorder (fn : Node -> M (bool * option error))
  (stopAt : Node -> bool) (step : Node -> Assembly -> Assembly)
  (fuel depth : nat) (p : ptr) (n : Node) (st : Assembly) :
  (forall n st, fn n st = Done ((stopAt n, None), step n st)) ->
  depth <= fuel -> wf_tree depth p = true -> nRawNode n = Some p ->
  walk fuel fn n st
  = Done (None, fold_left (fun st n => step n st) (preorder stopAt fuel n) st).
Proof.
  intros Hfn Hle Hwf Hraw.
  apply (walk_preorder_fold fn stopAt step (fun _ => True)
           (fun n st p _ _ => conj (Hfn n st) I)
           fuel depth p n st Hle Hwf Hraw I).
Qed.

Lemma visit_step n st p :
  nRawNode n = Some p -> nonempty st ->
  visit n st = Done ((visitStops n, None), visitStep n st)
  /\ nonempty (visitStep n st).
Proof.
  intros Hraw Hne.
  destruct (visit_total n st p Hraw Hne) as (stop & st' & Hvisit & Hne').
  unfold visitStep. rewrite Hvisit. split; [| exact Hne'].
  do 3 f_equal.
  apply visit_done in Hvisit
    as (c & b & remaining & u1 & s1 & s2 & u2 & Hpop & _ & Hbody & _).
  apply visitBody_result in Hbody as [_ Hstop]. simpl in Hstop.
  unfold visitStops. rewrite Hpop.
  destruct (Tags_GetBool (cTags c) TagIgnore); [exact Hstop |].
  now rewrite Hstop.
Qed.

(** X2. On a finite well-formed tree the assembly [Load] builds is the
    left fold of the callback over the pre-order listing of the nodes,
    cut below ignored nodes and end nodes: which nodes are visited, and in
    which order, does not depend on the document built so far. *)
Theorem build_preorder (fuel depth : nat) (root : ptr) :
  depth <= fuel -> wf_tree depth root = true ->
  build fuel root
  = Done (None,
          fold_left (fun st n => visitStep n st)
            (preorder visitStops fuel (rootNode root)) emptyAssembly).
Proof.
  intros Hle Hwf.
  apply (walk_preorder_fold visit visitStops visitStep nonempty
           visit_step fuel depth root (rootNode root) emptyAssembly
           Hle Hwf eq_refl).
  discriminate.
Qed.

(** *** A mapping of scalars *)

Lemma GetString_zero name : Tags_GetString (cTags zeroComment) name = "".
Proof. unfold Tags_GetString. simpl. now rewrite lookup_empty. Qed.

Lemma GetBool_zero name : Tags_GetBool (cTags zeroComment) name = false.
Proof. unfold Tags_GetBool. simpl. now rewrite lookup_empty. Qed.

Lemma plain_zero : plain zeroComment.
Proof. split; apply GetBool_zero. Qed.

Lemma appendedAll_nil init s st :
  Sections (document st) = init ++ [s] -> appendedAll [] init s st = st.
Proof.
  destruct st as [[secs] log ps], s as [name desc props]. simpl.
  intros ->. unfold appendedAll. simpl. now rewrite !app_nil_r.
Qed.

Lemma appended_appendedAll p ps init s st :
  appended p init
    {| sName := sName s; sDescription := sDescription s;
       sProperties := sProperties s ++ ps |}
    (appendedAll ps init s st)
  = appendedAll (ps ++ [p]) init s st.
Proof.
  unfold appended, appendedAll, addProperty. simpl.
  now rewrite !app_assoc.
Qed.

(** The callback on a scalar value whose node carries no comment. *)
Lemma visit_scalar path v st init s :
  Kind (mem v) = ScalarNode ->
  Sections (document st) = init ++ [s] ->
  let child := {| nPath := path; nHeadComments := []; nFootComment := [];
                  nRawNode := Some v |} in
  visit child st
  = Done ((true, None),
          appended
            {| pName := Path_String path;
               pDescription := zeroComment;
               pType := getTypeOf child zeroComment;
               pDefault := strings_TrimSpace
                             (Encoder_Encode 2 (Node_Encode (Node_Decode v))) |}
            init s st).
Proof.
  intros Hkind Hsections child.
  unfold visit, visitBody, isEndNode, getDefaultValue.
  cbn [Comments_Pop nHeadComments nFootComment nRawNode nPath child
       parseCommentsOntoDocument].
  rewrite GetBool_zero, GetString_zero, Hkind.
  unfold bind, lift, ret. cbn [negb String.eqb].
  now rewrite (appendProperty_last _ _ _ _ Hsections).
Qed.

(** The callback on a non-empty mapping or sequence without comments. *)
Lemma visit_container n p st :
  nRawNode n = Some p ->
  nHeadComments n = [] -> nFootComment n = [] ->
  Kind (mem p) = SequenceNode \/ Kind (mem p) = MappingNode ->
  Content (mem p) <> [] ->
  visit n st = Done ((false, None), st).
Proof.
  intros Hraw Hhead Hfoot Hkind Hne.
  unfold visit, visitBody, isEndNode. rewrite Hhead, Hfoot, Hraw.
  cbn [Comments_Pop parseCommentsOntoDocument].
  rewrite !GetBool_zero.
  assert ((length (Content (mem p)) =? 0)%nat = false) as Hlen
    by (destruct (Content (mem p)); [congruence | reflexivity]).
  unfold bind, lift, ret.
  destruct Hkind as [-> | ->]; rewrite Hlen; cbn [negb];
    now rewrite (parseComment_plain _ _ _ plain_zero).
Qed.

Lemma walk_scalars fuel root init s st pairs : forall ps,
  (forall kv, In kv pairs ->
     Kind (mem (snd kv)) = ScalarNode
     /\ ParseComment (HeadComment (mem (fst kv))) = []
     /\ ParseComment (FootComment (mem (fst kv))) = []) ->
  walkNodes (walk (S fuel) visit)
    (map (fun kv => mappingChild root (fst kv) (snd kv)) pairs)
    (appendedAll ps init s st)
  = Done (None,
          appendedAll (ps ++ map (scalarProperty (nPath root)) pairs)
            init s st).
Proof.
  induction pairs as [|kv rest IH]; intros ps Hpairs.
  - simpl. now rewrite app_nil_r.
  - destruct (Hpairs kv (or_introl eq_refl)) as (Hkind & Hhead & Hfoot).
    cbn [map walkNodes]. unfold mappingChild at 1. rewrite Hhead, Hfoot.
    erewrite bind_step.
    2: { apply (walk_stop fuel visit _ _ _ None true); [| now left].
         apply visit_scalar; [exact Hkind | reflexivity]. }
    rewrite appended_appendedAll, IH.
    + now rewrite <- app_assoc.
    + intros; apply Hpairs. now right.
Qed.

(** X9. A mapping node without comments whose values are all scalars and
    whose keys carry no comments gives one property per key, in the order
    of the keys: each is named by the path of the mapping extended with the
    key, has an empty description, the type of the value's tag and the
    re-encoded value as default, and goes to the section that was last
    when the mapping was reached. *)
Theorem mapping_of_scalars (fuel : nat) (n : Node) (p : ptr)
  (pairs : list (ptr * ptr)) (st : Assembly) (init : list DocSection)
  (s : DocSection) :
  nRawNode n = Some p ->
  nHeadComments n = [] -> nFootComment n = [] ->
  Kind (mem p) = MappingNode ->
  pairs <> [] ->
  Content (mem p) = flat_map (fun kv => [fst kv; snd kv]) pairs ->
  (forall kv, In kv pairs ->
     Kind (mem (snd kv)) = ScalarNode
     /\ ParseComment (HeadComment (mem (fst kv))) = []
     /\ ParseComment (FootComment (mem (fst kv))) = []) ->
  Sections (document st) = init ++ [s] ->
  walk (S (S fuel)) visit n st
  = Done (None, appendedAll (map (scalarProperty (nPath n)) pairs) init s st).
Proof.
  intros Hraw Hhead Hfoot Hkind Hne Hcontent Hpairs Hsections.
  assert (visit n st = Done ((false, None), st)) as Hvisit.
  { apply (visit_container n p st Hraw Hhead Hfoot); [now right |].
    rewrite Hcontent. destruct pairs; [congruence | discriminate]. }
  rewrite (walk_unfold _ _ _ _ _ _ Hvisit Hraw).
  rewrite bind_finish
    by (intros _; rewrite Hcontent; apply pairs_length_even).
  unfold childNodes. rewrite Hkind, Hcontent, mappingChildren_pairs.
  rewrite <- (appendedAll_nil init s st Hsections) at 1.
  now rewrite (walk_scalars fuel n init s st pairs [] Hpairs).
Qed.

Lemma walk_elements fuel root raw init s st content : forall k ps,
  ParseComment (HeadComment raw) = [] ->
  ParseComment (FootComment raw) = [] ->
  (forall v, In v content -> Kind (mem v) = ScalarNode) ->
  walkNodes (walk (S fuel) visit)
    (imap (fun j => sequenceChild root raw (k + j)) content)
    (appendedAll ps init s st)
  = Done (None,
          appendedAll
            (ps ++ imap (fun j => elementProperty (nPath root) (k + j)) content)
            init s st).
Proof.
  induction content as [|v rest IH]; intros k ps Hhead Hfoot Hscalar.
  - simpl. now rewrite app_nil_r.
  - cbn [imap walkNodes]. unfold sequenceChild at 1. rewrite Hhead, Hfoot.
    erewrite bind_step.
    2: { apply (walk_stop fuel visit _ _ _ None true); [| now left].
         apply visit_scalar; [apply Hscalar; now left | reflexivity]. }
    rewrite appended_appendedAll.
    rewrite (imap_ext _ (fun j => sequenceChild root raw (S k + j)) rest)
      by (intros; simpl; f_equal; lia).
    rewrite (imap_ext (_ ∘ S)
               (fun j => elementProperty (nPath root) (S k + j)) rest)
      by (intros; simpl; f_equal; lia).
    rewrite IH; [| assumption.. | intros; apply Hscalar; now right].
    rewrite <- app_assoc. simpl. now rewrite Nat.add_0_r.
Qed.

(** X15. A sequence node without comments whose elements are all scalars
    gives one property per element, in order: each is named by the path of
    the sequence followed by the index of the element in brackets, has an
    empty description, the type of the element's tag and the re-encoded
    element as default, and goes to the section that was last when the
    sequence was reached. *)
Theorem sequence_of_scalars (fuel : nat) (n : Node) (p : ptr)
  (st : Assembly) (init : list DocSection) (s : DocSection) :
  nRawNode n = Some p ->
  nHeadComments n = [] -> nFootComment n = [] ->
  Kind (mem p) = SequenceNode ->
  Content (mem p) <> [] ->
  ParseComment (HeadComment (mem p)) = [] ->
  ParseComment (FootComment (mem p)) = [] ->
  (forall v, In v (Content (mem p)) -> Kind (mem v) = ScalarNode) ->
  Sections (document st) = init ++ [s] ->
  walk (S (S fuel)) visit n st
  = Done (None,
          appendedAll (imap (elementProperty (nPath n)) (Content (mem p)))
            init s st).
Proof.
  intros Hraw Hhead Hfoot Hkind Hne Hhead' Hfoot' Hscalar Hsections.
  assert (visit n st = Done ((false, None), st)) as Hvisit
    by (apply (visit_container n p st Hraw Hhead Hfoot); auto).
  rewrite (walk_unfold _ _ _ _ _ _ Hvisit Hraw).
  rewrite bind_finish by congruence.
  unfold childNodes, sequenceChildren. rewrite Hkind.
  rewrite <- (appendedAll_nil init s st Hsections) at 1.
  exact (walk_elements fuel n (mem p) init s st (Content (mem p)) 0 []
           Hhead' Hfoot' Hscalar).
Qed.

End TraversalFacts.

(** ** Injection into a file *)

Section InjectFacts.

Context {R : RenderWorld}.

Lemma File_Write_at_end (b : bytes) (f : File) :
  fOffset f = length (fData f) ->
  File_Write b f
  = {| fData := fData f ++ b; fOffset := length (fData f) + length b |}.
Proof.
  intros Hoff. unfold File_Write. rewrite Hoff, Nat.sub_diag. simpl.
  rewrite app_nil_r, take_ge, drop_ge by lia. now rewrite app_nil_r.
Qed.

Lemma rewrite_file (a b c : bytes) (f : File) :
  File_Write c (File_Write b (File_Write a (File_Seek 0 (File_Truncate 0 f))))
  = {| fData := a ++ b ++ c; fOffset := length (a ++ b ++ c) |}.
Proof.
  unfold File_Seek, File_Truncate. simpl.
  rewrite (File_Write_at_end a) by reflexivity. simpl.
  rewrite (File_Write_at_end b) by reflexivity. simpl.
  rewrite (File_Write_at_end c) by (simpl; now rewrite length_app).
  simpl. rewrite <- !app_assoc, !length_app. f_equal. lia.
Qed.

Lemma Inject_success opened file templateName document headerMatch
  footerMatch contents file1 first start rendered :
  opened = inr file ->
  io_ReadAll file = (contents, None, file1) ->
  Regexp_FindIndex headerMatch contents = Some (first, start) ->
  start <= length contents ->
  footerStart footerMatch start contents <= length contents ->
  Render templateName document = inr rendered ->
  Inject opened templateName document headerMatch footerMatch
  = Done (None,
          Some {| fData :=
                    spliced contents start
                      (footerStart footerMatch start contents) rendered;
                  fOffset :=
                    length (spliced contents start
                              (footerStart footerMatch start contents)
                              rendered) |}).
Proof.
  intros -> Hread Hheader Hstart Hfinish Hrender. unfold Inject.
  rewrite Hread, Hheader. unfold sliceFrom at 1.
  destruct (Nat.leb_spec start (length contents)) as [_ | Hlt]; [| lia].
  rewrite Hrender. unfold sliceTo, sliceFrom.
  destruct (Nat.leb_spec start (length contents)) as [_ | Hlt]; [| lia].
  fold (footerStart footerMatch start contents).
  destruct (Nat.leb_spec (footerStart footerMatch start contents)
              (length contents)) as [_ | Hlt]; [| lia].
  now rewrite rewrite_file.
Qed.

(** X12. When the header is found and the template renders, [Inject]
    rewrites the file as: everything up to the end of the header match, the
    rendered document and a newline, and everything from the start of the
    footer match on, the footer being searched after the header only; when
    there is no footer, everything after the header is replaced.  The file
    offset is left at the end. *)
Theorem Inject_splices (file : File) (templateName : string)
  (document : Document) (headerMatch footerMatch : Regexp)
  (contents : bytes) (file1 : File) (first start : nat) (rendered : string) :
  io_ReadAll file = (contents, None, file1) ->
  Regexp_FindIndex headerMatch contents = Some (first, start) ->
  start <= length contents ->
  footerStart footerMatch start contents <= length contents ->
  Render templateName document = inr rendered ->
  Inject (inr file) templateName document headerMatch footerMatch
  = Done (None,
          Some {| fData :=
                    take start contents
                    ++ list_byte_of_string (rendered +:+ String "010" "")
                    ++ drop (footerStart footerMatch start contents) contents;
                  fOffset :=
                    length (spliced contents start
                              (footerStart footerMatch start contents)
                              rendered) |}).
Proof. intros. eapply Inject_success; eauto. Qed.

(** X13. Whenever [Inject] returns an error the file has not been
    written: either it could not be opened, or it is left as reading it
    left it.  The error is that of opening, that of reading, the fixed
    message for a missing header, or the fixed message that replaces
    whatever error [Render] gave. *)
Theorem Inject_error_leaves_file (opened : error + File)
  (templateName : string) (document : Document)
  (headerMatch footerMatch : Regexp) (e : error) (left : option File) :
  Inject opened templateName document headerMatch footerMatch
  = Done (Some e, left) ->
  (opened = inl e /\ left = None)
  \/ exists file contents readErr file1,
       opened = inr file
       /\ io_ReadAll file = (contents, readErr, file1)
       /\ left = Some file1
       /\ (readErr = Some e
           \/ (readErr = None
               /\ Regexp_FindIndex headerMatch contents = None
               /\ e = mkError "could not find parameters tag")
           \/ (readErr = None
               /\ (exists err, Render templateName document = inl err)
               /\ e = mkError "could not render documentation from template")).
Proof.
  unfold Inject. destruct opened as [e0 | file].
  { intros H; inversion H; subst. now left. }
  destruct (io_ReadAll file) as [[contents readErr] file1] eqn:Hread.
  intros H. right. exists file, contents, readErr, file1.
  split; [reflexivity |]. split; [exact Hread |].
  destruct readErr as [e0 |]; [inversion H; subst; auto |].
  destruct (Regexp_FindIndex headerMatch contents) as [[first start] |].
  2: { inversion H; subst. split; [reflexivity |]. right. left. auto. }
  destruct (sliceFrom start contents); try discriminate H.
  destruct (Render templateName document) as [err | rendered] eqn:Hrender.
  { inversion H; subst. split; [reflexivity |]. right. right. eauto. }
  repeat match type of H with
         | match ?x with _ => _ end = _ => destruct x
         end; discriminate H.
Qed.

(** X14. Injecting again is a no-op in the file: when, in the file a
    first injection wrote, the header is found to end where it ended
    before and the footer starts right after the injected text (or there
    is still no footer), a second injection of the same rendered document
    writes the same bytes. *)
Theorem Inject_idempotent (file file2 : File) (templateName : string)
  (document : Document) (headerMatch footerMatch : Regexp)
  (contents : bytes) (file1 file3 : File) (first first2 start : nat)
  (rendered : string) :
  io_ReadAll file = (contents, None, file1) ->
  Regexp_FindIndex headerMatch contents = Some (first, start) ->
  start <= length contents ->
  footerStart footerMatch start contents <= length contents ->
  Render templateName document = inr rendered ->
  let written :=
    spliced contents start (footerStart footerMatch start contents)
      rendered in
  io_ReadAll file2 = (written, None, file3) ->
  Regexp_FindIndex headerMatch written = Some (first2, start) ->
  footerStart footerMatch start written
  = start + length (list_byte_of_string (rendered +:+ String "010" "")) ->
  Inject (inr file) templateName document headerMatch footerMatch
  = Done (None, Some {| fData := written; fOffset := length written |})
  /\ Inject (inr file2) templateName document headerMatch footerMatch
     = Done (None, Some {| fData := written; fOffset := length written |}).
Proof.
  intros Hread Hheader Hstart Hfinish Hrender written Hread2 Hheader2 Hfooter2.
  split; [eapply Inject_success; eauto |].
  assert (length (take start contents) = start) as Htake
    by (rewrite length_take; lia).
  assert (start <= length written) as Hstart2.
  { unfold written, spliced. rewrite !length_app, Htake. lia. }
  assert (footerStart footerMatch start written <= length written) as Hfinish2.
  { rewrite Hfooter2. unfold written, spliced.
    rewrite !length_app, Htake. lia. }
  rewrite (Inject_success (inr file2) file2 templateName document headerMatch
             footerMatch written file3 first2 start rendered eq_refl Hread2
             Hheader2 Hstart2 Hfinish2 Hrender).
  assert (spliced written start (footerStart footerMatch start written)
            rendered = written) as ->; [| reflexivity].
  rewrite Hfooter2. unfold written, spliced.
  rewrite take_app_length' by exact (eq_sym Htake).
  do 2 f_equal.
  rewrite drop_app_add' by exact (eq_sym Htake).
  now rewrite drop_app_length.
Qed.

End InjectFacts.

(** ** Evaluation of the further properties *)

Import Sample TraversalSample RenderSample.

Lemma walk_only_grows_witness :
  exists r st',
    walk 4 visit (rootNode 0) emptyAssembly
    = Done (r, st')
    /\ grows emptyAssembly st'.
Proof.
  destruct (walk 4 visit (rootNode 0)
              emptyAssembly) as [[r st'] | |] eqn:H;
    [| vm_compute in H; discriminate H..].
  exists r, st'. split; [reflexivity |].
  exact (proj1 (walk_only_grows (W := sample_world)) 4 _ _ r st' H).
Defined.

Lemma plain_comments_ignored_witness :
  Forall plain [proseComment; zeroComment]
  /\ parseCommentsOntoDocument [] [proseComment; zeroComment] emptyAssembly
     = Done (tt, emptyAssembly).
Proof.
  assert (Forall plain [proseComment; zeroComment]) as Hplain
    by (repeat constructor).
  split; [exact Hplain |].
  exact (plain_comments_ignored [] _ emptyAssembly Hplain).
Defined.

Lemma section_comments_open_sections_witness :
  Forall (fun c => Tags_GetBool (cTags c) TagSection = true)
    [sectionComment "Global"; sectionComment "Controller"]
  /\ exists st,
       parseCommentsOntoDocument []
         [sectionComment "Global"; sectionComment "Controller"] emptyAssembly
       = Done (tt, st)
       /\ map sName (Sections (document st)) = [""; "Global"; "Controller"]
       /\ discovered st = [].
Proof.
  assert (Forall (fun c => Tags_GetBool (cTags c) TagSection = true)
            [sectionComment "Global"; sectionComment "Controller"]) as Hall
    by (repeat constructor).
  split; [exact Hall |].
  eexists. split;
    [exact (section_comments_open_sections [] _ emptyAssembly Hall) |].
  split; reflexivity.
Defined.

Lemma inference_keeps_prose_witness :
  exists parsedNode comment,
    inferFromCode [] twoBlocks = Done (parsedNode, comment)
    /\ cTags comment = cTags twoBlocks
    /\ List.filter isText (cSections comment)
       = List.filter isText (cSections twoBlocks).
Proof.
  destruct (inferFromCode [] twoBlocks) as [[parsedNode comment] | |] eqn:H;
    [| vm_compute in H; discriminate H..].
  exists parsedNode, comment. split; [reflexivity |].
  destruct (inference_keeps_prose [] twoBlocks comment parsedNode H)
    as (Htags & Htext & _).
  split; assumption.
Defined.

Lemma own_section_directive_witness :
  Tags_GetBool (cTags (sectionComment "Ports")) TagIgnore = false
  /\ Tags_GetBool (cTags (sectionComment "Ports")) TagSection = true
  /\ Sections (document emptyAssembly) = [] ++ [zeroSection]
  /\ isEndNode replicasNode (sectionComment "Ports") = Done true
  /\ getDefaultValue replicasNode (sectionComment "Ports") = Done "1"
  /\ exists st,
       visitBody replicasNode (sectionComment "Ports") emptyAssembly
       = Done ((true, None), st)
       /\ length (Sections (document st)) = 1.
Proof.
  split; [reflexivity |]. split; [reflexivity |]. split; [reflexivity |].
  split; [reflexivity |]. split; [reflexivity |].
  eexists. split.
  - exact (proj2 (own_section_directive replicasNode (sectionComment "Ports")
                    emptyAssembly [] zeroSection eq_refl eq_refl eq_refl)
             "1" eq_refl eq_refl).
  - reflexivity.
Defined.

Lemma Load_document_or_error_witness :
  exists doc,
    Done (Some doc, None) = Load 4 (inr 0)
    /\ ((exists e, @inr error ptr 0 = inl e /\ Some doc = None
                   /\ @None error = Some e)
        \/ exists root d, @inr error ptr 0 = inr root /\ Some doc = Some d
                          /\ @None error = None).
Proof.
  destruct (Load 4 (inr 0)) as [[[doc |] [e |]] | |] eqn:H;
    try (vm_compute in H; discriminate H).
  exists doc. split; [reflexivity |].
  exact (Load_document_or_error 4 (inr 0) (Some doc) None (eq_sym H)).
Defined.

Lemma document_alias_children_witness :
  nRawNode (rootNode 0) = Some 0
  /\ visit (rootNode 0) emptyAssembly = Done ((false, None), emptyAssembly)
  /\ Kind (mem 0) = DocumentNode
  /\ walk 4 visit (rootNode 0) emptyAssembly
     = walkNodes (walk 3 visit)
         [{| nPath := []; nHeadComments := []; nFootComment := [];
             nRawNode := Some 1 |}] emptyAssembly.
Proof.
  assert (visit (rootNode 0) emptyAssembly
          = Done ((false, None), emptyAssembly)) as Hvisit
    by (vm_compute; reflexivity).
  split; [reflexivity |]. split; [exact Hvisit |]. split; [reflexivity |].
  exact (proj1 (document_alias_children 3 visit (rootNode 0) emptyAssembly
                  emptyAssembly 0 eq_refl Hvisit) eq_refl).
Defined.

Lemma walk_preorder_witness :
  (forall n st, logPaths n st = Done ((false, None), logStep n st))
  /\ 4 <= 4 /\ wf_tree 4 0 = true
  /\ walk 4 logPaths (rootNode 0) emptyAssembly
     = Done (None,
             fold_left (fun st n => logStep n st)
               (preorder (fun _ => false) 4 (rootNode 0)) emptyAssembly)
  /\ map (fun n => Path_String (nPath n))
       (preorder (fun _ => false) 4 (rootNode 0))
     = [""; ""; "replicas"; "ports"; "ports[0]"; "ports[1]"; "secret";
        "secret.token"].
Proof.
  assert (forall n st, logPaths n st = Done ((false, None), logStep n st))
    as Hfn by reflexivity.
  split; [exact Hfn |]. split; [lia |]. split; [reflexivity |].
  split; [| reflexivity].
  exact (walk_preorder (W := sample_world) logPaths (fun _ => false) logStep
           4 4 0 (rootNode 0) emptyAssembly Hfn (le_n 4) eq_refl eq_refl).
Defined.

Lemma build_preorder_witness :
  4 <= 4 /\ wf_tree 4 0 = true
  /\ build 4 0
     = Done (None,
             fold_left (fun st n => visitStep n st)
               (preorder visitStops 4 (rootNode 0)) emptyAssembly)
  /\ map (fun n => Path_String (nPath n))
       (preorder visitStops 4 (rootNode 0))
     = [""; ""; "replicas"; "ports"; "ports[0]"; "ports[1]"; "secret"].
Proof.
  split; [lia |]. split; [reflexivity |]. split; [| reflexivity].
  exact (build_preorder (W := sample_world) 4 4 0 (le_n 4) eq_refl).
Defined.

Lemma mapping_of_scalars_witness :
  nRawNode tokenMapping = Some 7
  /\ Kind (mem 7) = MappingNode
  /\ Content (mem 7) = flat_map (fun kv => [fst kv; snd kv]) [(10, 11)]
  /\ Sections (document emptyAssembly) = [] ++ [zeroSection]
  /\ exists st,
       walk 2 visit tokenMapping emptyAssembly = Done (None, st)
       /\ map (fun p => (pName p, pType p, pDefault p)) (discovered st)
          = [("secret.token", "string", "abc")].
Proof.
  split; [reflexivity |]. split; [reflexivity |]. split; [reflexivity |].
  split; [reflexivity |].
  eexists. split.
  - apply (mapping_of_scalars (W := sample_world) 0 tokenMapping 7
             [(10, 11)] emptyAssembly [] zeroSection);
      try reflexivity; [discriminate |].
    intros kv [<- | []]. repeat split.
  - reflexivity.
Defined.

Lemma sequence_of_scalars_witness :
  nRawNode portsSequence = Some 0
  /\ Kind (mem (World := sequence_world) 0) = SequenceNode
  /\ Sections (document emptyAssembly) = [] ++ [zeroSection]
  /\ exists st,
       walk (W := sequence_world) 2 (visit (W := sequence_world))
         portsSequence emptyAssembly
       = Done (None, st)
       /\ map (fun p => (pName p, pType p, pDefault p)) (discovered st)
          = [("ports[0]", "number", "80"); ("ports[1]", "number", "443")].
Proof.
  split; [reflexivity |]. split; [reflexivity |]. split; [reflexivity |].
  eexists. split.
  - apply (sequence_of_scalars (W := sequence_world) 0 portsSequence 0
             emptyAssembly [] zeroSection); try reflexivity; [discriminate |].
    intros v [<- | [<- | []]]; reflexivity.
  - reflexivity.
Defined.

Lemma sample_injection :
  io_ReadAll readme = (fData readme, None,
                       {| fData := fData readme;
                          fOffset := length (fData readme) |})
  /\ Regexp_FindIndex headerPattern (fData readme) = Some (6, 19)
  /\ footerStart footerPattern 19 (fData readme) = 29
  /\ Render "markdown-table" oneSection = inr "| property | Global".
Proof. repeat split. Qed.

Lemma Inject_splices_witness :
  19 <= length (fData readme)
  /\ footerStart footerPattern 19 (fData readme) <= length (fData readme)
  /\ exists f,
       Inject (inr readme) "markdown-table" oneSection headerPattern
         footerPattern = Done (None, Some f)
       /\ string_of_list_byte (fData f)
          = "intro <!-- AUTO -->| property | Global" +:+ String "010" ""
            +:+ "<!-- END --> outro".
Proof.
  destruct sample_injection as (Hread & Hheader & Hfooter & Hrender).
  assert (19 <= length (fData readme)) as Hstart by (vm_compute; lia).
  assert (footerStart footerPattern 19 (fData readme)
          <= length (fData readme)) as Hfinish
    by (rewrite Hfooter; vm_compute; lia).
  split; [exact Hstart |]. split; [exact Hfinish |].
  pose proof (Inject_splices (R := render_world) readme "markdown-table"
                oneSection headerPattern footerPattern (fData readme)
                {| fData := fData readme; fOffset := length (fData readme) |}
                6 19 "| property | Global"
                Hread Hheader Hstart Hfinish Hrender) as Hinject.
  eexists. split; [exact Hinject |]. vm_compute. reflexivity.
Defined.

Lemma Inject_error_leaves_file_witness :
  exists e left,
       Inject (inr readme) "no-such-template" oneSection headerPattern
         footerPattern = Done (Some e, left)
       /\ e = mkError "could not render documentation from template"
       /\ option_map fData left = Some (fData readme).
Proof.
  destruct (Inject (inr readme) "no-such-template" oneSection headerPattern
              footerPattern) as [[[e |] left] | |] eqn:H;
    try (vm_compute in H; discriminate H).
  exists e, left. split; [reflexivity |].
  destruct (Inject_error_leaves_file (R := render_world) _ _ _ _ _ e left H)
    as [[Hopen _] | (file & contents & readErr & file1 & Hopen & Hread
                     & -> & Hcase)]; [discriminate Hopen |].
  inversion Hopen; subst file.
  vm_compute in Hread. inversion Hread; subst.
  destruct Hcase as [Hc | [(_ & Hc & _) | (_ & _ & ->)]];
    [discriminate Hc | vm_compute in Hc; discriminate Hc |].
  split; reflexivity.
Defined.

Lemma Inject_idempotent_witness :
  exists written,
    Inject (inr readme) "markdown-table" oneSection headerPattern
      footerPattern
    = Done (None, Some {| fData := written; fOffset := length written |})
    /\ Inject (inr {| fData := written; fOffset := 0 |}) "markdown-table"
         oneSection headerPattern footerPattern
       = Done (None, Some {| fData := written; fOffset := length written |}).
Proof.
  destruct sample_injection as (Hread & Hheader & Hfooter & Hrender).
  exists (spliced (fData readme) 19
            (footerStart footerPattern 19 (fData readme))
            "| property | Global").
  apply (Inject_idempotent (R := render_world) readme
           {| fData :=
                spliced (fData readme) 19
                  (footerStart footerPattern 19 (fData readme))
                  "| property | Global";
              fOffset := 0 |}
           "markdown-table" oneSection headerPattern footerPattern
           (fData readme)
           {| fData := fData readme; fOffset := length (fData readme) |}
           {| fData :=
                spliced (fData readme) 19
                  (footerStart footerPattern 19 (fData readme))
                  "| property | Global";
              fOffset := 57 |}
           6 6 19 "| property | Global" Hread Hheader);
    try exact Hrender; try (vm_compute; reflexivity); vm_compute; lia.
Defined.
